(** * Visual decision and segment assembly engine

    A shallow embedding of the routing, candidate-search and clip-planning
    code of [src/image_video_assembler.py] and [src/footage_downloader.py],
    and the properties the specification states about it.

    Conventions of the embedding.
    - Python [str] values are [string]s; [s.lower()] folds the letters A-Z.
    - Python [float] values are rationals ([Q]), compared with [==]. The
      bounds on scores, waits and clip lengths are stated in exact
      arithmetic; the sum of the shot durations is stated in binary64
      arithmetic, which [F64.round64] gives on rationals.
    - [re.search] is a backtracking matcher that lists the ways a pattern
      matches at a position in the order Python tries them; the match
      returned is the first one at the leftmost position that has any.
    - Module-level mutable state ([_IMAGE_CACHE], [_LAST_API_CALL]), the
      wall clock and the log of issued network requests are one explicit
      [World] record threaded through the search functions.
    - The key files and environment variables [get_api_key] reads are an
      [Env] record given to the searches.
    - Python exceptions are the [Raise] case of [Result]. *)

From Stdlib Require Import String Ascii List ZArith QArith Qround Qabs Qminmax Qpower Lia Lqa Bool Sorted DecimalString.
From Stdlib Require Import PrimFloat SpecFloat FloatOps.
From stdpp Require Import gmap strings.
Import ListNotations.

Local Open Scope string_scope.
Local Open Scope list_scope.

(** ** Strings as Python uses them *)

Module PyStr.

(** The double-quote character. *)
Definition DQ : ascii := ascii_of_nat 34.

(** [sub in s]. *)
Fixpoint contains (sub s : string) : bool :=
  String.prefix sub s ||
  match s with
  | EmptyString => false
  | String _ s' => contains sub s'
  end.

Definition lower_char (c : ascii) : ascii :=
  let n := nat_of_ascii c in
  if (65 <=? n)%nat && (n <=? 90)%nat then ascii_of_nat (n + 32) else c.

(** [s.lower()]. *)
Fixpoint lower (s : string) : string :=
  match s with
  | EmptyString => EmptyString
  | String c s' => String (lower_char c) (lower s')
  end.

(** [s[n:]]. *)
Fixpoint drop (n : nat) (s : string) : string :=
  match n, s with
  | O, _ => s
  | S _, EmptyString => EmptyString
  | S n', String _ s' => drop n' s'
  end.

(** [s[:n]]. *)
Fixpoint take (n : nat) (s : string) : string :=
  match n, s with
  | O, _ => EmptyString
  | S _, EmptyString => EmptyString
  | S n', String c s' => String c (take n' s')
  end.

(** [s.startswith(p)]. *)
Definition startswith (s p : string) : bool := String.prefix p s.

(** Truth value of a [str]: non-empty. *)
Definition truthy (s : string) : bool :=
  match s with EmptyString => false | String _ _ => true end.

(** Truth value of an [Optional[str]]: not [None] and non-empty. *)
Definition truthy_opt (o : option string) : bool :=
  match o with Some s => truthy s | None => false end.

(** [any(kw in s for kw in kws)]. *)
Definition any_in (kws : list string) (s : string) : bool :=
  existsb (fun kw => contains kw s) kws.

(** Every character of [s] satisfies [p]. *)
Fixpoint all_chars (p : ascii -> bool) (s : string) : bool :=
  match s with
  | EmptyString => true
  | String c s' => p c && all_chars p s'
  end.

End PyStr.
Import PyStr.

(** ** Regular expressions: the fragment the source's patterns use *)

Module Re.

Inductive regex : Type :=
| Str (t : string)                    (* literal text *)
| Cls (p : ascii -> bool)             (* one character of a class *)
| Rep (p : ascii -> bool) (n : nat)   (* [class]{n,}, greedy; + is {1,} *)
| Cat (r1 r2 : regex)
| Alt (r1 r2 : regex)                 (* r1|r2, r1 first *)
| Group (r : regex).                  (* the capturing group *)

(** Remainders of [s] after a run of at least [n] characters of class [p],
    the longest run first (greedy, then giving characters back). *)
Fixpoint rep (p : ascii -> bool) (n : nat) (s : string) : list string :=
  let stop := if (n =? 0)%nat then [s] else [] in
  match s with
  | EmptyString => stop
  | String c s' => if p c then rep p (pred n) s' ++ stop else stop
  end.

(** All the ways [r] matches a prefix of [s], in the order a backtracking
    matcher finds them: the remaining input and the group's text. *)
Fixpoint matches (r : regex) (s : string) (cap : option string)
  : list (string * option string) :=
  match r with
  | Str t => if String.prefix t s then [(drop (String.length t) s, cap)] else []
  | Cls p =>
      match s with
      | String c s' => if p c then [(s', cap)] else []
      | EmptyString => []
      end
  | Rep p n => map (fun s' => (s', cap)) (rep p n s)
  | Cat r1 r2 => flat_map (fun m => matches r2 (fst m) (snd m)) (matches r1 s cap)
  | Alt r1 r2 => matches r1 s cap ++ matches r2 s cap
  | Group r1 =>
      map (fun m => (fst m, Some (take (String.length s - String.length (fst m)) s)))
          (matches r1 s cap)
  end.

(** [re.search(r, s)]: [None] when nothing matches, otherwise the match
    object, reduced to its [group(1)]. *)
Fixpoint search (r : regex) (s : string) : option (option string) :=
  match matches r s None with
  | m :: _ => Some (snd m)
  | [] =>
      match s with
      | EmptyString => None
      | String _ s' => search r s'
      end
  end.

Definition upper_AZ (c : ascii) : bool :=
  let n := nat_of_ascii c in (65 <=? n)%nat && (n <=? 90)%nat.
Definition lower_az (c : ascii) : bool :=
  let n := nat_of_ascii c in (97 <=? n)%nat && (n <=? 122)%nat.
Definition not_dq (c : ascii) : bool := negb (Ascii.eqb c DQ).

(** [r1 r2 ... rn] and [(?:t1|t2|...|tn)]. *)
Fixpoint cat (rs : list regex) : regex :=
  match rs with
  | [] => Str EmptyString
  | [r] => r
  | r :: rs' => Cat r (cat rs')
  end.
Fixpoint alt (ts : list string) : regex :=
  match ts with
  | [] => Cls (fun _ => false)
  | [t] => Str t
  | t :: ts' => Alt (Str t) (alt ts')
  end.

(** The least number of characters a match of [r] consumes. *)
Fixpoint minlen (r : regex) : nat :=
  match r with
  | Str t => String.length t
  | Cls _ => 1
  | Rep _ n => n
  | Cat r1 r2 => minlen r1 + minlen r2
  | Alt r1 r2 => Nat.min (minlen r1) (minlen r2)
  | Group r1 => minlen r1
  end.

(** Every group of [r] captures at least [n] characters. *)
Fixpoint groups_ge (n : nat) (r : regex) : bool :=
  match r with
  | Str _ | Cls _ | Rep _ _ => true
  | Cat r1 r2 | Alt r1 r2 => groups_ge n r1 && groups_ge n r2
  | Group r1 => (n <=? minlen r1)%nat && groups_ge n r1
  end.

Definition cap_ge (n : nat) (cap : option string) : Prop :=
  match cap with
  | None => True
  | Some g => (n <= String.length g)%nat
  end.

End Re.
Import Re.

(** ** Visual types and the knowledge base *)

Inductive VisualType : Type :=
| F1_IMAGE | TALKING_HEAD | YOUTUBE_CLIP | QUOTE_OVERLAY | VEO3_VIDEO.

Record VisualDecision : Type := {
  primary_type : VisualType;
  fallback_type : VisualType;
  search_queries : list string;
  speaker_name : option string;
  quote_text : option string;
  veo3_prompt : option string;
  confidence : Q
}.

(** Dictionaries that the code iterates over are association lists in
    insertion order. *)
Definition F1_DRIVERS : list (string * string) :=
  [ ("verstappen", "Max Verstappen"); ("hamilton", "Lewis Hamilton");
    ("leclerc", "Charles Leclerc"); ("norris", "Lando Norris");
    ("sainz", "Carlos Sainz"); ("russell", "George Russell");
    ("perez", "Sergio Perez"); ("alonso", "Fernando Alonso");
    ("stroll", "Lance Stroll"); ("ocon", "Esteban Ocon");
    ("gasly", "Pierre Gasly"); ("tsunoda", "Yuki Tsunoda");
    ("ricciardo", "Daniel Ricciardo"); ("bottas", "Valtteri Bottas");
    ("piastri", "Oscar Piastri"); ("lawson", "Liam Lawson");
    ("antonelli", "Kimi Antonelli"); ("bearman", "Oliver Bearman");
    ("schumacher", "Michael Schumacher"); ("senna", "Ayrton Senna");
    ("vettel", "Sebastian Vettel"); ("raikkonen", "Kimi Raikkonen");
    ("wolff", "Toto Wolff"); ("horner", "Christian Horner");
    ("binotto", "Mattia Binotto"); ("brown", "Zak Brown");
    ("newey", "Adrian Newey"); ("brawn", "Ross Brawn") ].

Definition F1_TEAMS : list (string * string) :=
  [ ("red bull", "Red Bull Racing"); ("mercedes", "Mercedes F1");
    ("ferrari", "Scuderia Ferrari"); ("mclaren", "McLaren F1");
    ("aston martin", "Aston Martin F1"); ("alpine", "Alpine F1");
    ("williams", "Williams Racing"); ("haas", "Haas F1");
    ("sauber", "Sauber F1"); ("rb", "RB F1 Team") ].

Definition FUEL_PARTNERS : list (string * string) :=
  [ ("aramco", "Saudi Aramco"); ("shell", "Shell");
    ("petronas", "Petronas"); ("mobil", "ExxonMobil");
    ("castrol", "Castrol"); ("bp", "BP"); ("gulf", "Gulf Oil") ].

Definition CONCEPT_KEYWORDS : list string :=
  [ "how"; "why"; "explain"; "concept"; "basically"; "essentially";
    "fundamentally"; "process"; "mechanism"; "chemistry"; "physics";
    "engineering"; "fischer-tropsch"; "syngas"; "catalyst"; "molecule";
    "carbon capture"; "efficiency"; "thermal"; "combustion";
    "compression ratio"; "power unit"; "mgu-h"; "mgu-k"; "hybrid" ].

Definition ACTION_KEYWORDS : list string :=
  [ "race"; "racing"; "overtake"; "crash"; "pit stop"; "start";
    "finish"; "podium"; "celebration"; "onboard"; "battle";
    "wheel to wheel"; "championship"; "victory"; "dramatic" ].

Definition VEO3_KEYWORDS : list string :=
  [ "future"; "vision"; "imagine"; "revolution"; "transformation";
    "evolution"; "innovation"; "breakthrough"; "paradigm"; "frontier";
    "molecular"; "atomic"; "chemical reaction"; "synthesis";
    "production facility"; "industrial"; "manufacturing";
    "wind tunnel"; "aerodynamic"; "simulation" ].

(** [VEO3_PROMPTS], in the order the templates are declared. *)
Definition VEO3_PROMPTS : list (string * string) :=
  [ ("fuel_production", "Industrial fuel production facility with advanced chemistry equipment, glowing reactors, sustainable energy, futuristic laboratory");
    ("carbon_capture", "Carbon capture technology visualization, CO2 molecules being absorbed, green industrial facility, environmental technology");
    ("engine_tech", "Formula 1 power unit internal visualization, turbo spinning, energy flow through MGU-K, high-tech engineering");
    ("wind_tunnel", "F1 car in wind tunnel, smoke particles flowing over aerodynamic bodywork, technical testing facility");
    ("chemistry", "Chemical synthesis process visualization, molecular bonds forming, laboratory equipment, scientific innovation");
    ("factory", "High-tech F1 factory floor, carbon fiber components being manufactured, robotic precision, clean room environment");
    ("data_analysis", "F1 data analysis visualization, telemetry streams, holographic displays, race strategy simulation");
    ("sustainable", "Sustainable energy technology, green fuel production, environmental innovation, clean energy future") ].

(** [d[k]] for a key the dictionary is known to hold. *)
Fixpoint assoc (d : list (string * string)) (k : string) : option string :=
  match d with
  | [] => None
  | (k', v) :: d' => if String.eqb k' k then Some v else assoc d' k
  end.

(** ** Quote and speaker detection *)

(** The quote pattern: a double quote, a group of twenty or more characters
    other than the double quote, a double quote. *)
Definition quote_re : regex :=
  cat [Str (String DQ EmptyString); Group (Rep not_dq 20); Str (String DQ EmptyString)].

(** [[A-Z][a-z]+ [A-Z][a-z]+] *)
Definition full_name : regex :=
  cat [Cls upper_AZ; Rep lower_az 1; Str " "; Cls upper_AZ; Rep lower_az 1].

Definition speaker_patterns : list regex :=
  [ cat [Group full_name; Str " "; alt ["said"; "stated"; "explained"; "mentioned"; "noted"]];
    cat [alt ["said"; "stated"; "explained"]; Str " "; Group full_name];
    cat [Str "as "; Group full_name; Str " "; alt ["put it"; "noted"; "explained"]];
    cat [Str "according to "; Group full_name] ].

(** The loop over [speaker_patterns]: the first pattern that matches
    anywhere decides, and the loop stops there. *)
Fixpoint first_speaker (patterns : list regex) (text : string) : option string :=
  match patterns with
  | [] => None
  | pattern :: rest =>
      match search pattern text with
      | Some g => g
      | None => first_speaker rest text
      end
  end.

(** The loop over [F1_DRIVERS.items()]. *)
Fixpoint known_speaker (drivers : list (string * string)) (text_lower : string)
  : option string :=
  match drivers with
  | [] => None
  | (key, name) :: rest =>
      if contains key text_lower
         && any_in ["said"; "stated"; "explained"; "according"] text_lower
      then Some name
      else known_speaker rest text_lower
  end.

Definition detect_quote (text : string) : option string * option string :=
  let quote :=
    match search quote_re text with
    | Some g => g
    | None => None
    end in
  let speaker := first_speaker speaker_patterns text in
  let speaker :=
    if negb (truthy_opt speaker)
    then match known_speaker F1_DRIVERS (lower text) with
         | Some name => Some name
         | None => speaker
         end
    else speaker in
  (speaker, quote).

(** ** Entity detection and scene prompts *)

Record Entities : Type := {
  drivers : list string;
  teams : list string;
  fuel_partners : list string
}.

Definition names_in (d : list (string * string)) (text_lower : string) : list string :=
  map snd (List.filter (fun kv => contains (fst kv) text_lower) d).

Definition detect_f1_entities (text : string) : Entities :=
  let text_lower := lower text in
  {| drivers := names_in F1_DRIVERS text_lower;
     teams := names_in F1_TEAMS text_lower;
     fuel_partners := names_in FUEL_PARTNERS text_lower |}.

Definition get_veo3_prompt (text context : string) : option string :=
  let text_lower := lower (text +:+ " " +:+ context) in
  if any_in ["fuel production"; "sustainable fuel"; "synthetic fuel"] text_lower
  then assoc VEO3_PROMPTS "fuel_production"
  else if any_in ["carbon capture"; "co2"; "carbon dioxide"] text_lower
  then assoc VEO3_PROMPTS "carbon_capture"
  else if any_in ["power unit"; "engine"; "mgu"; "turbo"] text_lower
  then assoc VEO3_PROMPTS "engine_tech"
  else if any_in ["wind tunnel"; "aerodynamic"; "downforce"] text_lower
  then assoc VEO3_PROMPTS "wind_tunnel"
  else if any_in ["chemistry"; "chemical"; "molecule"; "synthesis"; "fischer-tropsch"] text_lower
  then assoc VEO3_PROMPTS "chemistry"
  else if any_in ["factory"; "manufacturing"; "production"] text_lower
  then assoc VEO3_PROMPTS "factory"
  else if any_in ["data"; "telemetry"; "analysis"; "strategy"] text_lower
  then assoc VEO3_PROMPTS "data_analysis"
  else if any_in ["sustainable"; "green"; "environment"; "future"] text_lower
  then assoc VEO3_PROMPTS "sustainable"
  else None.

(** ** Routing *)

(** A segment is a dictionary read with [segment.get(key, default)]. *)
Definition get (segment : gmap string string) (key dflt : string) : string :=
  default dflt (segment !! key).

(** [xs or ys]. *)
Definition or_else (xs ys : list string) : list string :=
  match xs with [] => ys | _ :: _ => xs end.

(** [f"{x}"] for an [Optional[str]]. *)
Definition fmt (o : option string) : string := default "None" o.

Definition route_visual (segment : gmap string string) (use_veo3 : bool)
  : VisualDecision :=
  let text := get segment "text" EmptyString in
  let context := get segment "context" EmptyString in
  let footage_query := get segment "footage_query" EmptyString in
  let combined_text := text +:+ " " +:+ context +:+ " " +:+ footage_query in
  let text_lower := lower combined_text in
  (* Check for quotes first *)
  let '(speaker, quote) := detect_quote text in
  if truthy_opt speaker && truthy_opt quote then
    {| primary_type := QUOTE_OVERLAY;
       fallback_type := F1_IMAGE;
       search_queries := [fmt speaker +:+ " F1"; fmt speaker +:+ " portrait"];
       speaker_name := speaker;
       quote_text := quote;
       veo3_prompt := None;
       confidence := 0.95 |}
  else
  let entities := detect_f1_entities combined_text in
  (* Build search queries *)
  let search_queries :=
    map (fun driver => driver +:+ " F1 2024") (firstn 2 (drivers entities))
    ++ map (fun team => team +:+ " F1 car") (firstn 2 (teams entities))
    ++ map (fun partner => partner +:+ " F1") (firstn 1 (fuel_partners entities)) in
  let search_queries :=
    if truthy footage_query && negb (startswith footage_query "GRAPHIC:")
    then search_queries ++ [footage_query]
    else search_queries in
  (* Decision logic *)
  let nonempty (l : list string) := match l with [] => false | _ :: _ => true end in
  let has_f1_content :=
    nonempty (drivers entities) || nonempty (teams entities)
    || nonempty (fuel_partners entities) in
  let is_concept := any_in CONCEPT_KEYWORDS text_lower in
  let is_action := any_in ACTION_KEYWORDS text_lower in
  let is_veo3_suitable := any_in VEO3_KEYWORDS text_lower in
  let rest :=
    if is_action && has_f1_content then
      {| primary_type := YOUTUBE_CLIP;
         fallback_type := F1_IMAGE;
         search_queries := or_else search_queries ["F1 " +:+ context];
         speaker_name := None; quote_text := None; veo3_prompt := None;
         confidence := 0.85 |}
    else if has_f1_content && negb is_concept then
      {| primary_type := F1_IMAGE;
         fallback_type := TALKING_HEAD;
         search_queries := or_else search_queries ["F1 " +:+ context];
         speaker_name := None; quote_text := None; veo3_prompt := None;
         confidence := 0.9 |}
    else if is_concept then
      let veo3_prompt := if use_veo3 then get_veo3_prompt text context else None in
      {| primary_type := TALKING_HEAD;
         fallback_type := if truthy_opt veo3_prompt then VEO3_VIDEO else F1_IMAGE;
         search_queries := or_else search_queries ["F1 technology"; "motorsport engineering"];
         speaker_name := None; quote_text := None; veo3_prompt := veo3_prompt;
         confidence := 0.8 |}
    else
      {| primary_type := F1_IMAGE;
         fallback_type := TALKING_HEAD;
         search_queries := or_else search_queries ["Formula 1 racing"; "F1 car"];
         speaker_name := None; quote_text := None; veo3_prompt := None;
         confidence := 0.6 |} in
  if use_veo3 && is_veo3_suitable && negb has_f1_content then
    let veo3_prompt := get_veo3_prompt text context in
    if truthy_opt veo3_prompt then
      {| primary_type := VEO3_VIDEO;
         fallback_type := TALKING_HEAD;
         search_queries := or_else search_queries ["F1 technology"];
         speaker_name := None; quote_text := None; veo3_prompt := veo3_prompt;
         confidence := 0.85 |}
    else rest
  else rest.

(** The scenario of the specification. *)
Definition hamilton_text : string :=
  String DQ "We pushed the car to its limit," +:+ String DQ " said Lewis Hamilton.".

Definition hamilton_segment : gmap string string :=
  {[ "text" := hamilton_text ]}.


(** A double-quoted span of [text], in the words of the specification: [q]
    stands between two double quotes, holds none itself and has at least
    twenty characters; [pre] is the text before its opening quote. *)
Definition quoted_span (text pre q : string) : Prop :=
  exists post,
    text = pre +:+ String DQ (q +:+ String DQ post)
    /\ all_chars not_dq q = true
    /\ (20 <= String.length q)%nat.

(** A sentence with two quotations, the second the longer one. *)
Definition first_quote : string := "It was a very good race,".
Definition second_quote : string := "The team did a fantastic job all weekend long.".
Definition two_quotes_text : string :=
  String DQ first_quote +:+ String DQ " he said. "
  +:+ String DQ second_quote +:+ String DQ EmptyString.

(** ** Clip planning ([create_segment_video]) *)

Local Open Scope Q_scope.

Definition MIN_CLIP_DURATION : Q := 3.0.
Definition MAX_CLIP_DURATION : Q := 5.0.
Definition CROSSFADE_DURATION : Q := 0.5.
Definition API_RATE_LIMIT_DELAY : Q := 0.5.

Definition KEN_BURNS_EFFECTS : list string :=
  ["zoom_in"; "zoom_out"; "pan_left"; "pan_right"].

(** [int(x)] of a float: truncation toward zero. *)
Definition py_int (x : Q) : Z :=
  if Qle_bool 0 x then Qfloor x else Qceiling x.

(** [num_clips = max(2, int(audio_duration / MAX_CLIP_DURATION) + 1)] *)
Definition num_clips (audio_duration : Q) : Z :=
  Z.max 2 (py_int (audio_duration / MAX_CLIP_DURATION) + 1).

(** [clip_duration = audio_duration / num_clips] *)
Definition clip_duration (audio_duration : Q) (num_clips : Z) : Q :=
  audio_duration / inject_Z num_clips.

(** [this_duration], the duration given to the clip that gets index
    [clip_idx]. *)
Definition this_duration (audio_duration : Q) (num_clips : Z) (clip_idx : Z) : Q :=
  let clip_duration := clip_duration audio_duration num_clips in
  if (clip_idx <? num_clips - 1)%Z
  then clip_duration
  else audio_duration - inject_Z clip_idx * clip_duration.

(** [range(n)]. *)
Definition range (n : Z) : list Z := map Z.of_nat (seq 0 (Z.to_nat n)).

Definition Qsum (l : list Q) : Q := fold_right Qplus 0 l.

(** *** The plan in floating point

    The definitions above read the arithmetic of the plan in exact
    rationals. Python computes it in binary64: every operation gives the
    binary64 number nearest to the exact result, the one with an even
    significand when two are equally near. [F64] is that arithmetic on
    rationals, for results below the overflow threshold; [Rounded] is the
    plan computed with it. *)

Module F64.

(** The integer nearest to [x], the even one of two equally near. *)
Definition round_half_even (x : Q) : Z :=
  let f := Qfloor x in
  match Qcompare (x - inject_Z f) (1 # 2) with
  | Lt => f
  | Gt => (f + 1)%Z
  | Eq => if Z.even f then f else (f + 1)%Z
  end.

(** For a positive [x], the integer [k] with [2 ^ k <= x < 2 ^ (k + 1)]:
    the logarithms of numerator and denominator leave two candidates. *)
Definition ilog2 (x : Q) : Z :=
  let k := (Z.log2 (Qnum x) - Z.log2 (Zpos (Qden x)))%Z in
  if Qle_bool (2 ^ k) x then k else (k - 1)%Z.

(** The exponent of the smallest positive binary64 number. *)
Definition emin : Z := -1074.

(** The binary64 number nearest to [x]: a significand of 53 bits at the
    exponent of [x], or at [emin] for a subnormal result. *)
Definition round64 (x : Q) : Q :=
  if Qeq_bool x 0 then 0 else
  let e := Z.max (ilog2 (Qabs x) - 52) emin in
  inject_Z (round_half_even (x / 2 ^ e)) * 2 ^ e.

(** [float(z)] for an integer, and the operations [/], [*], [-] on floats. *)
Definition of_int (z : Z) : Q := round64 (inject_Z z).
Definition fdiv (x y : Q) : Q := round64 (x / y).
Definition fmul (x y : Q) : Q := round64 (x * y).
Definition fsub (x y : Q) : Q := round64 (x - y).

(** Half the distance from 1 to the next binary64 number, and half the
    smallest positive binary64 number. *)
Definition eps : Q := 2 ^ (-53).
Definition eta : Q := 2 ^ (-1075).

(** The value of a finite float of the kernel, to compare [round64] with
    the arithmetic of the processor. *)
Definition Q_of_float (f : float) : option Q :=
  match Prim2SF f with
  | S754_zero _ => Some 0
  | S754_finite s m e =>
      Some ((if s then - inject_Z (Zpos m) else inject_Z (Zpos m)) * 2 ^ e)
  | _ => None
  end.

Definition same (f : float) (q : Q) : bool :=
  match Q_of_float f with
  | Some q' => Qeq_bool q' q
  | None => false
  end.

End F64.

Module Rounded.
Import F64.

(** [num_clips = max(2, int(audio_duration / MAX_CLIP_DURATION) + 1)] *)
Definition num_clips (audio_duration : Q) : Z :=
  Z.max 2 (py_int (fdiv audio_duration MAX_CLIP_DURATION) + 1).

(** [clip_duration = audio_duration / num_clips]: the integer is converted
    to a float, then the floats are divided. *)
Definition clip_duration (audio_duration : Q) (num_clips : Z) : Q :=
  fdiv audio_duration (of_int num_clips).

(** [this_duration = clip_duration if clip_idx < num_clips - 1
                     else audio_duration - clip_idx * clip_duration] *)
Definition this_duration (audio_duration : Q) (num_clips : Z) (clip_idx : Z) : Q :=
  let clip_duration := clip_duration audio_duration num_clips in
  if (clip_idx <? num_clips - 1)%Z
  then clip_duration
  else fsub audio_duration (fmul (of_int clip_idx) clip_duration).

(** The durations of the shots when every planned clip is produced: the
    clips take the indices [0 .. num_clips - 1] in turn. *)
Definition shot_durations (audio_duration : Q) (num_clips : Z) : list Q :=
  map (this_duration audio_duration num_clips) (range num_clips).

End Rounded.

(** [xfade_duration = min(CROSSFADE_DURATION, clip_duration / 4)] *)
Definition xfade_duration (audio_duration : Q) (num_clips : Z) : Q :=
  Qmin CROSSFADE_DURATION (clip_duration audio_duration num_clips / 4).

(** The loop [for i in range(2, len(clip_files))]: each round adds
    [clip_duration - xfade_duration] to [current_offset] and emits it. *)
Fixpoint xfade_chain (step current_offset : Q) (rounds : nat) : list Q :=
  match rounds with
  | O => []
  | S rounds' =>
      let current_offset := current_offset + step in
      current_offset :: xfade_chain step current_offset rounds'
  end.

(** The offsets of the crossfades written into the filter chain for
    [len_clip_files] clips (two or more: with fewer the function has
    returned before). *)
Definition xfade_offsets (audio_duration : Q) (num_clips : Z) (len_clip_files : nat)
  : list Q :=
  let step := clip_duration audio_duration num_clips
              - xfade_duration audio_duration num_clips in
  if (len_clip_files =? 2)%nat
  then [step]
  else step :: xfade_chain step step (len_clip_files - 2).

(** ** Scoring of search results ([footage_downloader.score_result]) *)

Definition OFFICIAL_CHANNELS : list string :=
  [ "FORMULA 1"; "Formula 1"; "F1"; "Sky Sports F1"; "Red Bull Racing";
    "Mercedes-AMG PETRONAS F1 Team"; "Scuderia Ferrari"; "McLaren";
    "Aston Martin Aramco F1 Team"; "BWT Alpine F1 Team"; "Williams Racing" ].

Definition GOOD_KEYWORDS : list string :=
  [ "highlights"; "onboard"; "race edit"; "best moments";
    "compilation"; "season review"; "battle"; "overtake";
    "pit stop"; "start"; "finish"; "podium"; "top 10";
    "pole lap"; "fastest lap"; "crash"; "incident";
    "qualifying"; "sprint"; "team radio" ].

Definition BAD_KEYWORDS : list string :=
  [ "interview"; "press conference"; "reaction"; "reacts";
    "podcast"; "explained"; "breakdown"; "analysis";
    "vlog"; "behind the scenes"; "documentary"; "full race";
    "live stream"; "watch along"; "my thoughts"; "opinion";
    "review"; "preview"; "prediction" ].

(** The value of [score] when [score_result] reaches its [return]. *)
Definition raw_score (title channel : string) : Q :=
  let title_lower := lower title in
  let channel_lower := lower channel in
  let score := 0.5 in
  (* Official channel boost: the first official name found adds 0.25 and
     ends the loop *)
  let score :=
    if existsb (fun official => contains (lower official) channel_lower)
               OFFICIAL_CHANNELS
    then score + 0.25 else score in
  (* Good keywords boost *)
  let score :=
    fold_left (fun score good =>
                 if contains good title_lower then score + 0.08 else score)
              GOOD_KEYWORDS score in
  (* Bad keywords penalty *)
  let score :=
    fold_left (fun score bad =>
                 if contains bad title_lower then score - 0.25 else score)
              BAD_KEYWORDS score in
  score.

(** [return max(0, min(1, score))] *)
Definition score_result (title channel : string) : Q :=
  Qmax 0 (Qmin 1 (raw_score title channel)).

(** The keywords of a list that occur in a title. *)
Definition hits (keywords : list string) (title : string) : nat :=
  length (List.filter (fun kw => contains kw (lower title)) keywords).

(** A title on an official channel that scores above the upper clamp, and
    the same title with one undesirable keyword more. *)
Definition clean_title : string := "highlights onboard battle overtake".
Definition tainted_title : string := clean_title +:+ " interview".

(** ** Exceptions, the world and the image searches *)

Inductive Exn : Type :=
| URLError          (* urlopen: the network or the server failed *)
| JSONDecodeError   (* json.loads: the body is not JSON *)
| KeyError          (* an item of the response lacks a key the code reads *)
| OSError.          (* subprocess.run: the program could not be started;
                       open: the file could not be opened *)

Inductive Result (A : Type) : Type :=
| Ok (a : A)
| Raise (e : Exn).
Arguments Ok {A} a.
Arguments Raise {A} e.

Inductive Backend : Type := Pexels | Unsplash.

(** What the outside world records of a run: sleeps and network requests,
    each with the backend whose search caused it. *)
Inductive Event : Type :=
| Slept (b : Backend) (seconds : Q)
| Requested (b : Backend) (at_time : Q).

Record World : Type := {
  now : Q;                                  (* what [time.time()] returns *)
  LAST_API_CALL : Q;                        (* [_LAST_API_CALL] *)
  IMAGE_CACHE : gmap string (list string);  (* [_IMAGE_CACHE] *)
  events : list Event                       (* newest first *)
}.

(** The state of the module when it is loaded at time [t]. *)
Definition start (t : Q) : World :=
  {| now := t; LAST_API_CALL := 0; IMAGE_CACHE := ∅; events := [] |}.

(** Time passing between two operations. *)
Definition tick (seconds : Q) (w : World) : World :=
  {| now := now w + seconds; LAST_API_CALL := LAST_API_CALL w;
     IMAGE_CACHE := IMAGE_CACHE w; events := events w |}.

(** [time.sleep(seconds)] in the search of backend [b]. *)
Definition sleep (b : Backend) (seconds : Q) (w : World) : World :=
  {| now := now w + seconds; LAST_API_CALL := LAST_API_CALL w;
     IMAGE_CACHE := IMAGE_CACHE w; events := Slept b seconds :: events w |}.

(** What the server answers to a request. *)
Inductive Response : Type :=
| NetworkError                        (* [urlopen] raises *)
| NotJson                             (* the body does not decode *)
| Json (items : list (option string)).
  (* the list under the key the backend reads ([photos], [results]; empty
     when the key is missing); an item is [Some url] when it has the keys
     the code reads, [None] when reading them raises *)

(** [urlopen(req, timeout=15)] followed by [json.loads]: the request is
    issued, takes [latency] seconds, and the answer is decoded. *)
Definition urlopen_json (b : Backend) (resp : Response) (latency : Q) (w : World)
  : Result (list (option string)) * World :=
  let w' := {| now := now w + latency; LAST_API_CALL := LAST_API_CALL w;
               IMAGE_CACHE := IMAGE_CACHE w;
               events := Requested b (now w) :: events w |} in
  match resp with
  | NetworkError => (Raise URLError, w')
  | NotJson => (Raise JSONDecodeError, w')
  | Json items => (Ok items, w')
  end.

(** The loop [for photo in ...: urls.append(photo[..][..])]: it appends to
    the list [urls] in place, so what was appended before an item raises
    stays in [urls]. *)
Fixpoint append_urls (items : list (option string)) (urls : list string)
  : Result unit * list string :=
  match items with
  | [] => (Ok tt, urls)
  | Some url :: items' => append_urls items' (urls ++ [url])
  | None :: _ => (Raise KeyError, urls)
  end.

(** The rate limiting lines, the same in both searches:
    [elapsed = time.time() - _LAST_API_CALL] and
    [if elapsed < API_RATE_LIMIT_DELAY: time.sleep(API_RATE_LIMIT_DELAY - elapsed)]. *)
Definition rate_limit_wait (w : World) : option Q :=
  let elapsed := now w - LAST_API_CALL w in
  if negb (Qle_bool API_RATE_LIMIT_DELAY elapsed)
  then Some (API_RATE_LIMIT_DELAY - elapsed)
  else None.

Definition rate_limit (b : Backend) (w : World) : World :=
  match rate_limit_wait w with
  | Some seconds => sleep b seconds w
  | None => w
  end.

(** [str(n)] for a count. *)
Definition str (n : nat) : string := NilEmpty.string_of_uint (Nat.to_uint n).

Definition backend_name (b : Backend) : string :=
  match b with Pexels => "pexels" | Unsplash => "unsplash" end.

Definition cache_key (b : Backend) (query : string) (num_images : nat) : string :=
  backend_name b +:+ "_" +:+ query +:+ "_" +:+ str num_images.

(** The line feed. *)
Definition LF : string := String (ascii_of_nat 10) EmptyString.

(** Whitespace as [str.strip()] sees it in ASCII text. *)
Definition is_space (c : ascii) : bool :=
  let n := nat_of_ascii c in
  ((9 <=? n)%nat && (n <=? 13)%nat) || ((28 <=? n)%nat && (n <=? 32)%nat).

Fixpoint lstrip (s : string) : string :=
  match s with
  | EmptyString => EmptyString
  | String c s' => if is_space c then lstrip s' else s
  end.

Fixpoint rstrip (s : string) : string :=
  match s with
  | EmptyString => EmptyString
  | String c s' =>
      match rstrip s' with
      | EmptyString => if is_space c then EmptyString else String c EmptyString
      | r => String c r
      end
  end.

(** [s.strip()]. *)
Definition strip (s : string) : string := rstrip (lstrip s).

(** [s.upper()], on the letters a to z. *)
Definition upper_char (c : ascii) : ascii :=
  let n := nat_of_ascii c in
  if ((97 <=? n)%nat && (n <=? 122)%nat)%bool then ascii_of_nat (n - 32) else c.

Fixpoint upper (s : string) : string :=
  match s with
  | EmptyString => EmptyString
  | String c s' => String (upper_char c) (upper s')
  end.

(** What [get_api_key] can see of the machine: the files of the folder
    [shared/creds], by name, and the environment variables. A file that is
    there ([os.path.exists]) either gives its text or makes [open] or [read]
    raise (no permission, a directory, bytes that do not decode). *)
Record Env : Type := {
  creds_dir : gmap string (Result string);
  environ : gmap string string
}.

(** [get_api_key(name)]: nothing is caught here, so what [open] or [read]
    raises reaches the caller. *)
Definition get_api_key (env : Env) (name : string) : Result (option string) :=
  match creds_dir env !! name with
  | Some (Ok text) => Ok (Some (strip text))
  | Some (Raise e) => Raise e
  | None => Ok (environ env !! (upper name +:+ "_API_KEY"))
  end.

(** The body of [search_images_pexels] and of [search_images_unsplash],
    which differ in the backend's name, URL, header and response keys only.
    [env] is the machine as [get_api_key] finds it; [resp] and [latency] are
    what the network does if a request is issued. The key is looked up after
    the cache and before the [try], so an exception of [get_api_key] is not
    caught. *)
Definition search_images (b : Backend) (query : string) (num_images : nat)
           (env : Env) (resp : Response) (latency : Q) (w : World)
  : Result (list string) * World :=
  let cache_key := cache_key b query num_images in
  match IMAGE_CACHE w !! cache_key with
  | Some urls => (Ok urls, w)
  | None =>
      match get_api_key env (backend_name b) with
      | Raise e => (Raise e, w)
      | Ok api_key =>
      if negb (truthy_opt api_key) then (Ok [], w) else
      (* Rate limiting *)
      let w := rate_limit b w in
      let urls := [] in
      (* try: *)
      let w := {| now := now w; LAST_API_CALL := now w;
                  IMAGE_CACHE := IMAGE_CACHE w; events := events w |} in
      let '(r, w) := urlopen_json b resp latency w in
      match r with
      | Raise _ => (Ok urls, w)                 (* except Exception: pass *)
      | Ok items =>
          let '(r, urls) := append_urls items urls in
          match r with
          | Raise _ => (Ok urls, w)             (* except Exception: pass *)
          | Ok _ =>
              (Ok urls,
               {| now := now w; LAST_API_CALL := LAST_API_CALL w;
                  IMAGE_CACHE := <[cache_key := urls]> (IMAGE_CACHE w);
                  events := events w |})
          end
      end
      end
  end.

Definition search_images_pexels := search_images Pexels.
Definition search_images_unsplash := search_images Unsplash.

(** The time of the most recent request, to whichever backend; 0, the
    initial value of [_LAST_API_CALL], when there was none. *)
Fixpoint latest_request (evs : list Event) : Q :=
  match evs with
  | [] => 0
  | Requested _ t :: _ => t
  | Slept _ _ :: evs' => latest_request evs'
  end.

(** The time of the most recent request to backend [b], if any: the
    [last_call_timestamp] per provider of the specification. *)
Fixpoint last_call_timestamp (b : Backend) (evs : list Event) : option Q :=
  match evs with
  | [] => None
  | Requested b' t :: evs' =>
      match b, b' with
      | Pexels, Pexels | Unsplash, Unsplash => Some t
      | _, _ => last_call_timestamp b evs'
      end
  | Slept _ _ :: evs' => last_call_timestamp b evs'
  end.

(** The states a run can be in: the module is loaded, time passes, and
    searches are made with any arguments, on any machine and with any
    behaviour of the network. *)
Inductive Reachable : World -> Prop :=
| reach_start (t : Q) : 0 <= t -> Reachable (start t)
| reach_tick (seconds : Q) (w : World) :
    0 <= seconds -> Reachable w -> Reachable (tick seconds w)
| reach_search (b : Backend) (query : string) (num_images : nat)
               (env : Env) (resp : Response) (latency : Q)
               (w : World) :
    0 <= latency -> Reachable w ->
    Reachable (snd (search_images b query num_images env resp latency w)).

(** The well-formed items at the head of a response. *)
Fixpoint leading_urls (items : list (option string)) : list string :=
  match items with
  | Some url :: items' => url :: leading_urls items'
  | _ => []
  end.

(** A machine with a key file for each backend, one with no credentials
    at all, and one whose Pexels key file cannot be opened. *)
Definition with_keys : Env :=
  {| creds_dir := {[ "pexels" := Ok ("key" +:+ LF); "unsplash" := Ok "key" ]};
     environ := ∅ |}.
Definition no_credentials : Env := {| creds_dir := ∅; environ := ∅ |}.
Definition locked_key_file : Env :=
  {| creds_dir := {[ "pexels" := Raise OSError ]}; environ := ∅ |}.

(** The two searches [search_f1_images] makes for one query, one right
    after the other, in a module loaded at time 100 with both API keys
    present: Pexels answers an empty list after 0.1 s. *)
Definition after_pexels : World :=
  snd (search_images_pexels "Ferrari F1 car" 4 with_keys (Json []) 0.1 (start 100)).
Definition after_unsplash : World :=
  snd (search_images_unsplash "Ferrari F1 car" 4 with_keys (Json []) 0.1 after_pexels).

(** A response whose second item lacks the keys the code reads. *)
Definition half_good_response : Response :=
  Json [Some "https://images.pexels.com/photos/1/large2x.jpg"; None].

(** ** The footage search ([footage_downloader.search_youtube_enhanced]) *)

Definition enhance_query (query : string) : string :=
  let query_lower := lower query in
  let has_good := any_in GOOD_KEYWORDS query_lower in
  let has_f1 := contains "f1" query_lower || contains "formula" query_lower in
  let enhanced := query in
  let enhanced := if negb has_f1 then query +:+ " F1" else enhanced in
  if negb has_good then
    if contains "race" query_lower || contains "gp" query_lower
    then enhanced +:+ " highlights"
    else if any_in ["verstappen"; "hamilton"; "leclerc"; "norris"; "alonso"] query_lower
    then enhanced +:+ " onboard"
    else enhanced +:+ " highlights"
  else enhanced.

(** [s.split(sep)] for a non-empty [sep]: [cur] is the piece being read,
    [skip] the number of characters of a separator still to pass over. *)
Fixpoint split_from (sep : string) (skip : nat) (cur : string) (s : string)
  : list string :=
  match s with
  | EmptyString => [cur]
  | String c s' =>
      match skip with
      | S skip' => split_from sep skip' cur s'
      | O =>
          if String.prefix sep s
          then cur :: split_from sep (String.length sep - 1) EmptyString s'
          else split_from sep 0 (cur +:+ String c EmptyString) s'
      end
  end.

Definition split (sep s : string) : list string :=
  split_from sep 0 EmptyString s.

(** One entry of the list [search_youtube_enhanced] returns. *)
Record Video : Type := {
  title : string;
  id : string;
  channel : string;
  duration : string;
  score : Q;
  is_official : bool
}.

(** [videos.sort(key=lambda v: v["score"], reverse=True)]: a stable sort,
    best score first, equal scores in their original order. *)
Fixpoint insert_by_score (v : Video) (sorted : list Video) : list Video :=
  match sorted with
  | [] => [v]
  | u :: rest =>
      if Qle_bool (score u) (score v)
      then v :: sorted
      else u :: insert_by_score v rest
  end.

Definition sort_by_score (videos : list Video) : list Video :=
  fold_right insert_by_score [] videos.

(** The body of the loop over the lines of the output: what a line adds
    to [videos]. *)
Definition video_of_line (line : string) : list Video :=
  if negb (contains "|||" line) then []
  else
    match split "|||" line with
    | title :: video_id :: channel :: duration :: _ =>
        let quality_score := score_result title channel in
        (* Skip obviously bad content *)
        if negb (Qle_bool 0.2 quality_score) then []
        else [ {| title := title; id := video_id; channel := channel;
                  duration := duration; score := quality_score;
                  is_official :=
                    existsb (fun o => contains (lower o) (lower channel))
                            OFFICIAL_CHANNELS |} ]
    | _ => []
    end.

(** A line of the tool's output that is usable: it has at least four
    fields between the separators, and the title and the channel among them
    score at least 0.2. *)
Definition usable (line : string) : bool :=
  let parts := split "|||" line in
  (4 <=? length parts)%nat
  && Qle_bool 0.2 (score_result (nth 0 parts EmptyString) (nth 2 parts EmptyString)).

Section FootageSearch.

(** [subprocess.run(cmd, capture_output=True, text=True)], reduced to what
    the code reads of it: the standard output of the program, or the
    exception raised when the program cannot be started. *)
Variable subprocess_run : list string -> Result string.

Definition yt_dlp_cmd (query : string) (max_results : nat) : list string :=
  [ "yt-dlp"; "--no-warnings";
    "ytsearch" +:+ str max_results +:+ ":" +:+ enhance_query query;
    "--print"; "%(title)s|||%(id)s|||%(channel)s|||%(duration)s";
    "--no-download" ].

(** The call of [subprocess.run] stands outside any [try]: what it raises
    reaches the caller. *)
Definition search_youtube_enhanced (query : string) (max_results : nat)
  : Result (list Video) :=
  match subprocess_run (yt_dlp_cmd query max_results) with
  | Raise e => Raise e
  | Ok stdout =>
      let videos := flat_map video_of_line (split LF (strip stdout)) in
      Ok (sort_by_score videos)
  end.

End FootageSearch.

(** A search tool that answers two lines, and one that fails and prints
    nothing. *)
Definition two_videos (cmd : list string) : Result string :=
  Ok ("Monaco GP interview with the winner|||abc|||Some Fan|||300" +:+ LF
      +:+ "Monaco GP race highlights|||def|||FORMULA 1|||420" +:+ LF).
Definition no_output (cmd : list string) : Result string := Ok EmptyString.

(** ** Notions used to state further properties *)

(** The text [route_visual] scans for entities and keywords:
    [f"{text} {context} {footage_query}"]. *)
Definition combined_text (segment : gmap string string) : string :=
  get segment "text" EmptyString +:+ " " +:+ get segment "context" EmptyString
  +:+ " " +:+ get segment "footage_query" EmptyString.

(** All the names [detect_f1_entities] found. *)
Definition entity_names (e : Entities) : list string :=
  drivers e ++ teams e ++ fuel_partners e.

(** A segment about carbon capture, with no person, team or partner in it. *)
Definition carbon_segment : gmap string string :=
  {[ "text" := "Imagine the future of carbon capture" ]}.

(** Every item of a response has the keys the code reads. *)
Definition well_formed (items : list (option string)) : bool :=
  forallb (fun item => match item with Some _ => true | None => false end) items.

(** The times of the requests in a log, newest first. *)
Fixpoint request_times (evs : list Event) : list Q :=
  match evs with
  | [] => []
  | Requested _ t :: evs' => t :: request_times evs'
  | Slept _ _ :: evs' => request_times evs'
  end.

(** Successive times, newest first, lie at least [API_RATE_LIMIT_DELAY]
    apart. *)
Fixpoint spaced (times : list Q) : Prop :=
  match times with
  | later :: (earlier :: _) as rest =>
      earlier + API_RATE_LIMIT_DELAY <= later /\ spaced rest
  | _ => True
  end.

(** The lengths of the sleeps in a log. *)
Fixpoint sleeps (evs : list Event) : list Q :=
  match evs with
  | [] => []
  | Slept _ seconds :: evs' => seconds :: sleeps evs'
  | Requested _ _ :: evs' => sleeps evs'
  end.

(** The durations of the shots when only the first [produced] of the
    planned clips come about: the clips take the indices
    [0 .. produced - 1]. *)
Definition produced_durations (audio_duration : Q) (num_clips produced : Z) : list Q :=
  map (this_duration audio_duration num_clips) (range produced).

(** [KEN_BURNS_EFFECTS[effect_idx % len(KEN_BURNS_EFFECTS)]]; [None] stands
    for an index out of range. *)
Definition ken_burns_effect (effect_idx : nat) : option string :=
  nth_error KEN_BURNS_EFFECTS (effect_idx mod length KEN_BURNS_EFFECTS).

(** [any(o.lower() in channel.lower() for o in OFFICIAL_CHANNELS)]. *)
Definition official (channel : string) : bool :=
  existsb (fun o => contains (lower o) (lower channel)) OFFICIAL_CHANNELS.

(** Best score first. *)
Definition by_score_desc (u v : Video) : Prop := score v <= score u.

(** ** Callers of the image searches *)

Section ImageSearchCallers.

(** The machine as it is when the program is in a given state, and what
    the network does to a request issued in that state: its answer and the
    time it takes. *)
Variable host : World -> Env.
Variable network : Backend -> string -> nat -> World -> Response * Q.

(** [search_images_pexels(query, num_images)] and
    [search_images_unsplash(query, num_images)] in this environment. *)
Definition call_search (b : Backend) (query : string) (num_images : nat) (w : World)
  : Result (list string) * World :=
  search_images b query num_images (host w)
                (fst (network b query num_images w))
                (snd (network b query num_images w)) w.

(** The loop [for query in queries[:4]] of [search_f1_images]; nothing is
    caught here, so an exception of a search passes through. *)
Fixpoint search_f1_loop (queries : list string) (num_per_query : nat)
         (all_urls : list string) (w : World) : Result (list string) * World :=
  match queries with
  | [] => (Ok all_urls, w)
  | query :: rest =>
      (* Add F1-specific terms for better results *)
      let f1_query :=
        if negb (contains "f1" (lower query))
        then query +:+ " Formula 1" else query in
      (* Try Pexels first *)
      match call_search Pexels f1_query num_per_query w with
      | (Raise e, w) => (Raise e, w)
      | (Ok urls, w) =>
          let all_urls := all_urls ++ urls in
          (* Try Unsplash as backup *)
          if (length urls <? num_per_query)%nat then
            match call_search Unsplash f1_query (num_per_query - length urls) w with
            | (Raise e, w) => (Raise e, w)
            | (Ok unsplash_urls, w) =>
                search_f1_loop rest num_per_query (all_urls ++ unsplash_urls) w
            end
          else search_f1_loop rest num_per_query all_urls w
      end
  end.

(** Remove duplicates while preserving order: the loop over [all_urls]
    with the set [seen] and the list [unique_urls]. *)
Fixpoint unique_loop (all_urls : list string) (seen : gset string)
         (unique_urls : list string) : list string :=
  match all_urls with
  | [] => unique_urls
  | url :: rest =>
      if decide (url ∈ seen)
      then unique_loop rest seen unique_urls
      else unique_loop rest ({[url]} ∪ seen) (unique_urls ++ [url])
  end.

Definition search_f1_images (queries : list string) (num_per_query : nat) (w : World)
  : Result (list string) * World :=
  match search_f1_loop (firstn 4 queries) num_per_query [] w with
  | (Raise e, w) => (Raise e, w)
  | (Ok all_urls, w) => (Ok (unique_loop all_urls ∅ []), w)
  end.

(** The loop [for query in queries] of [search_person_image]. *)
Fixpoint person_loop (queries : list string) (w : World)
  : Result (option string) * World :=
  match queries with
  | [] => (Ok None, w)
  | query :: rest =>
      match call_search Pexels query 2 w with
      | (Raise e, w) => (Raise e, w)
      | (Ok (url :: _), w) => (Ok (Some url), w)
      | (Ok [], w) =>
          match call_search Unsplash query 2 w with
          | (Raise e, w) => (Raise e, w)
          | (Ok (url :: _), w) => (Ok (Some url), w)
          | (Ok [], w) => person_loop rest w
          end
      end
  end.

Definition search_person_image (name : string) (w : World)
  : Result (option string) * World :=
  person_loop [name +:+ " portrait"; name +:+ " F1"; name +:+ " Formula 1"] w.

(** No key for either backend, whatever the state: the key lookup succeeds
    and gives nothing, or an empty key. *)
Definition keyless : Prop :=
  forall w b, exists api_key,
    get_api_key (host w) (backend_name b) = Ok api_key
    /\ truthy_opt api_key = false.

End ImageSearchCallers.

(** The number of requests in a log. *)
Definition request_count (w : World) : nat := length (request_times (events w)).

(** A network where both backends answer the same two pictures. *)
Definition same_pictures (b : Backend) (query : string) (n : nat) (w : World)
  : Response * Q :=
  (Json [Some "https://img.example/a.jpg"; Some "https://img.example/b.jpg"], 0.1%Q).

(** ** The clip search ([image_video_assembler.search_youtube_f1_clips]) *)

Module Clips.

(** A Python float as [float(s)] can return it. *)
Inductive PyFloat : Type :=
| Finite (q : Q)
| PosInf
| NegInf
| NaN.

(** [x > 600]: false for a NaN. *)
Definition gt_600 (x : PyFloat) : bool :=
  match x with
  | Finite q => negb (Qle_bool q 600)
  | PosInf => true
  | NegInf | NaN => false
  end.

Record Clip : Type := {
  url : string;
  title : string;
  duration : PyFloat;
  channel : string;
  priority : Z
}.

(** Prioritize official F1 content. *)
Definition channel_priority (channel : string) : Z :=
  let channel_lower := lower channel in
  if contains "formula 1" channel_lower || contains "f1" channel_lower then 2
  else if contains "motorsport" channel_lower || contains "racing" channel_lower
  then 1
  else 0.

(** [clips.sort(key=lambda x: -x["priority"])]: a stable sort, highest
    priority first. *)
Fixpoint insert_by_priority (c : Clip) (sorted : list Clip) : list Clip :=
  match sorted with
  | [] => [c]
  | u :: rest =>
      if (priority u <=? priority c)%Z
      then c :: sorted
      else u :: insert_by_priority c rest
  end.

Definition sort_by_priority (clips : list Clip) : list Clip :=
  fold_right insert_by_priority [] clips.

(** Highest priority first. *)
Definition by_priority_desc (u v : Clip) : Prop := (priority v <= priority u)%Z.

Section Search.

(** [subprocess.run(cmd, capture_output=True, text=True, timeout=30)]: the
    standard output, or the exception it raises (the program is missing,
    the timeout expires); and [float(s)], [None] standing for its
    [ValueError]. *)
Variable subprocess_run : list string -> Result string.
Variable float : string -> option PyFloat.

(** [float(duration_str) if duration_str and duration_str != 'NA' else 60],
    with 60 again when [float] raises [ValueError]. *)
Definition parse_duration (duration_str : string) : PyFloat :=
  if truthy duration_str && negb (String.eqb duration_str "NA")
  then match float duration_str with
       | Some x => x
       | None => Finite 60
       end
  else Finite 60.

(** The body of the loop over the lines of the output. *)
Definition clip_of_line (line : string) : list Clip :=
  if contains "|" line then
    match split "|" line with
    | video_id :: title :: duration_str :: channel :: _ =>
        let duration := parse_duration duration_str in
        (* Skip very long videos *)
        if gt_600 duration then []
        else [ {| url := "https://www.youtube.com/watch?v=" +:+ video_id;
                  title := title;
                  duration := duration;
                  channel := channel;
                  priority := channel_priority channel |} ]
    | _ => []
    end
  else [].

Definition yt_dlp_cmd (query : string) (max_results : nat) : list string :=
  let search_query :=
    if negb (contains "f1" (lower query)) then "F1 " +:+ query else query in
  [ "yt-dlp"; "--flat-playlist";
    "--print"; "%(id)s|%(title)s|%(duration)s|%(channel)s";
    "ytsearch" +:+ str (max_results * 2) +:+ ":" +:+ search_query;
    "--no-warnings" ].

(** The whole body stands in a [try] whose handler prints the error and
    returns an empty list. *)
Definition search_youtube_f1_clips (query : string) (max_results : nat)
  : Result (list Clip) :=
  match subprocess_run (yt_dlp_cmd query max_results) with
  | Raise _ => Ok []
  | Ok stdout =>
      let clips := flat_map clip_of_line (split LF (strip stdout)) in
      Ok (firstn max_results (sort_by_priority clips))
  end.

End Search.

(** A search tool that cannot be started, and a parser of the two
    durations the example output holds. *)
Definition cannot_start (cmd : list string) : Result string := Raise OSError.
Definition three_clips (cmd : list string) : Result string :=
  Ok ("a1|Fan vlog|120|Some Fan" +:+ LF
      +:+ "b2|Race highlights|900|FORMULA 1" +:+ LF
      +:+ "c3|Onboard lap|NA|Sky Sports F1" +:+ LF).
Definition float_example (s : string) : option PyFloat :=
  if String.eqb s "120" then Some (Finite 120)
  else if String.eqb s "900" then Some (Finite 900)
  else None.

End Clips.

(** ** Gathering image clips ([create_segment_video]) *)


Section ImageClips.

(** [download_file(url, img_path)] and
    [create_image_clip(img_path, clip_path, this_duration, width, height, effect)],
    reduced to whether they succeed; the paths are given by the clip index. *)
Variable download_file : string -> Z -> bool.
Variable create_image_clip : Z -> Q -> string -> bool.


End ImageClips.



(** * Properties *)

Local Close Scope Q_scope.

(** ** Strings *)

Lemma length_take (n : nat) (s : string) :
  String.length (take n s) = Nat.min n (String.length s).
Proof.
  revert s; induction n as [|n IH]; intros [|c s]; simpl; auto.
Qed.

Lemma length_drop_prefix (t s : string) :
  String.prefix t s = true ->
  String.length (drop (String.length t) s) + String.length t = String.length s.
Proof.
  revert s; induction t as [|a t IH]; intros [|b s] H; simpl in *;
    try lia; try discriminate.
  revert H. destruct (ascii_dec a b); [intros H|discriminate].
  rewrite <- (IH s H). lia.
Qed.

Lemma truthy_length (s : string) : (1 <= String.length s)%nat -> truthy s = true.
Proof. destruct s; simpl; [lia|reflexivity]. Qed.

(** ** The matcher consumes what a pattern needs *)

Module ReFacts.

Lemma rep_length p n s rest :
  In rest (rep p n s) -> (String.length rest + n <= String.length s)%nat.
Proof.
  revert n; induction s as [|c s IH]; intros n; simpl.
  - destruct n; simpl; [intros [<-|[]]; simpl; lia | intros []].
  - assert (Hstop : In rest (if (n =? 0)%nat then [String c s] else []) ->
                    (String.length rest + n <= S (String.length s))%nat).
    { destruct n; simpl; [intros [<-|[]]; simpl; lia | intros []]. }
    destruct (p c); [|exact Hstop].
    rewrite in_app_iff. intros [H|H]; [|exact (Hstop H)].
    apply IH in H. lia.
Qed.

Lemma matches_length r : forall s cap rest c,
  In (rest, c) (matches r s cap) ->
  (String.length rest + minlen r <= String.length s)%nat.
Proof.
  induction r as [t|p|p n|r1 IH1 r2 IH2|r1 IH1 r2 IH2|r1 IH1];
    intros s cap rest c; simpl.
  - destruct (String.prefix t s) eqn:E; [|intros []].
    intros [H|[]]. inversion H; subst.
    pose proof (length_drop_prefix t s E). lia.
  - destruct s as [|a s]; [intros []|].
    destruct (p a); [|intros []].
    intros [H|[]]. inversion H; subst. simpl. lia.
  - rewrite in_map_iff. intros (s' & H & Hin). inversion H; subst.
    now apply rep_length in Hin.
  - rewrite in_flat_map. intros ([s1 c1] & H1 & H2). simpl in H2.
    apply IH1 in H1. apply IH2 in H2. lia.
  - rewrite in_app_iff. intros [H|H]; [apply IH1 in H|apply IH2 in H]; lia.
  - rewrite in_map_iff. intros ([s1 c1] & H & Hin). inversion H; subst.
    now apply IH1 in Hin.
Qed.

Lemma matches_cap n r : forall s cap rest c,
  groups_ge n r = true -> cap_ge n cap ->
  In (rest, c) (matches r s cap) -> cap_ge n c.
Proof.
  induction r as [t|p|p k|r1 IH1 r2 IH2|r1 IH1 r2 IH2|r1 IH1];
    intros s cap rest c Hg Hcap; simpl in *.
  - destruct (String.prefix t s); [|intros []].
    intros [H|[]]. now inversion H; subst.
  - destruct s as [|a s]; [intros []|].
    destruct (p a); [|intros []].
    intros [H|[]]. now inversion H; subst.
  - rewrite in_map_iff. intros (s' & H & _). now inversion H; subst.
  - apply andb_true_iff in Hg as [Hg1 Hg2].
    rewrite in_flat_map. intros ([s1 c1] & H1 & H2). simpl in H2.
    eapply IH2; [exact Hg2| |exact H2].
    eapply IH1; [exact Hg1|exact Hcap|exact H1].
  - apply andb_true_iff in Hg as [Hg1 Hg2].
    rewrite in_app_iff. intros [H|H]; [eapply IH1|eapply IH2]; eauto.
  - apply andb_true_iff in Hg as [Hg1 Hg2]. apply Nat.leb_le in Hg1.
    rewrite in_map_iff. intros ([s1 c1] & H & Hin). inversion H; subst.
    simpl. rewrite length_take. apply matches_length in Hin. simpl in *. lia.
Qed.

Lemma search_cap n r s g :
  groups_ge n r = true -> search r s = Some g -> cap_ge n g.
Proof.
  intros Hg. induction s as [|a s IH]; simpl.
  - destruct (matches r EmptyString None) as [|[rest c] ms] eqn:E; [discriminate|].
    intros H; inversion H; subst. simpl.
    eapply (matches_cap n r EmptyString None rest); [exact Hg|exact I|].
    rewrite E. now left.
  - destruct (matches r (String a s) None) as [|[rest c] ms] eqn:E; [exact IH|].
    intros H; inversion H; subst. simpl.
    eapply (matches_cap n r (String a s) None rest); [exact Hg|exact I|].
    rewrite E. now left.
Qed.

End ReFacts.

(** ** Quote detection yields non-empty texts *)

Lemma first_speaker_cap (patterns : list regex) (text s : string) :
  forallb (groups_ge 1) patterns = true ->
  first_speaker patterns text = Some s -> (1 <= String.length s)%nat.
Proof.
  induction patterns as [|pattern rest IH]; simpl; [discriminate|].
  intros Hg. apply andb_true_iff in Hg as [Hp Hrest].
  destruct (search pattern text) as [g|] eqn:E; [|now apply IH].
  intros ->. exact (ReFacts.search_cap 1 pattern text (Some s) Hp E).
Qed.

Lemma known_speaker_name (ds : list (string * string)) (text_lower name : string) :
  known_speaker ds text_lower = Some name -> In name (map snd ds).
Proof.
  induction ds as [|[key v] ds IH]; simpl; [discriminate|].
  destruct (_ && _); [intros [= ->]; now left | intros H; right; auto].
Qed.

Lemma detect_quote_speaker_truthy (text : string) (o : option string) (s : string) :
  detect_quote text = (Some s, o) -> truthy s = true.
Proof.
  intros H. apply (f_equal fst) in H. unfold detect_quote in H.
  cbv zeta in H. cbn [fst] in H. revert H.
  destruct (first_speaker speaker_patterns text) as [s0|] eqn:E;
    cbn [truthy_opt negb].
  - assert (H0 : truthy s0 = true).
    { apply truthy_length. now apply (first_speaker_cap speaker_patterns text). }
    rewrite H0. cbn [negb]. now intros [= <-].
  - destruct (known_speaker F1_DRIVERS (lower text)) as [name|] eqn:K; [|discriminate].
    intros [= <-]. apply known_speaker_name in K.
    assert (Hall : forallb truthy (map snd F1_DRIVERS) = true) by reflexivity.
    rewrite forallb_forall in Hall. auto.
Qed.

Lemma detect_quote_quote_long (text : string) (o : option string) (q : string) :
  detect_quote text = (o, Some q) -> (20 <= String.length q)%nat.
Proof.
  intros H. apply (f_equal snd) in H. unfold detect_quote in H.
  cbv zeta in H. cbn [snd] in H. revert H.
  destruct (search quote_re text) as [g|] eqn:E; [|discriminate].
  intros ->. exact (ReFacts.search_cap 20 quote_re text (Some q) eq_refl E).
Qed.

Lemma route_visual_quote_branch (segment : gmap string string) (use_veo3 : bool)
      (sp q : string) :
  detect_quote (get segment "text" EmptyString) = (Some sp, Some q) ->
  route_visual segment use_veo3 =
  {| primary_type := QUOTE_OVERLAY;
     fallback_type := F1_IMAGE;
     search_queries := [sp +:+ " F1"; sp +:+ " portrait"];
     speaker_name := Some sp;
     quote_text := Some q;
     veo3_prompt := None;
     confidence := 0.95 |}.
Proof.
  intros H. unfold route_visual. cbv zeta. rewrite H.
  cbn [truthy_opt fmt default].
  rewrite (detect_quote_speaker_truthy _ _ _ H).
  rewrite (truthy_length q); [reflexivity|].
  pose proof (detect_quote_quote_long _ _ _ H). lia.
Qed.

Lemma or_else_nonempty (xs ys : list string) : ys <> [] -> or_else xs ys <> [].
Proof. destruct xs; simpl; [auto|discriminate]. Qed.

(** ** Routing *)

(** C1. A segment whose text has a detected quote and an identified speaker
    is routed to the quotation card with confidence 0.95, whatever its
    context, footage query and generated-scene flag are, and the decision
    carries that speaker and that quote. *)
Theorem route_visual_quote_card (segment : gmap string string) (use_veo3 : bool)
        (sp q : string) :
  detect_quote (get segment "text" EmptyString) = (Some sp, Some q) ->
  primary_type (route_visual segment use_veo3) = QUOTE_OVERLAY /\
  confidence (route_visual segment use_veo3) = 0.95%Q /\
  speaker_name (route_visual segment use_veo3) = Some sp /\
  quote_text (route_visual segment use_veo3) = Some q.
Proof.
  intros H. rewrite (route_visual_quote_branch segment use_veo3 sp q H).
  repeat split.
Qed.

(** The scenario of the specification: the quote, the speaker and the
    quotation-card decision for the Hamilton sentence. *)
Lemma route_visual_quote_card_hamilton :
  detect_quote hamilton_text
  = (Some "Lewis Hamilton", Some "We pushed the car to its limit,") /\
  primary_type (route_visual hamilton_segment true) = QUOTE_OVERLAY /\
  confidence (route_visual hamilton_segment true) = 0.95%Q /\
  speaker_name (route_visual hamilton_segment true) = Some "Lewis Hamilton" /\
  quote_text (route_visual hamilton_segment true)
  = Some "We pushed the car to its limit,".
Proof.
  assert (H : detect_quote (get hamilton_segment "text" EmptyString)
              = (Some "Lewis Hamilton", Some "We pushed the car to its limit,"))
    by (vm_compute; reflexivity).
  split; [vm_compute; reflexivity|].
  exact (route_visual_quote_card hamilton_segment true _ _ H).
Defined.

(** C5, as the specification states it, fails: the Hamilton sentence has a
    detected quote and speaker, and its fallback is not the footage clip. *)
Lemma route_visual_quote_fallback_not_footage :
  detect_quote (get hamilton_segment "text" EmptyString)
  = (Some "Lewis Hamilton", Some "We pushed the car to its limit,") /\
  fallback_type (route_visual hamilton_segment true) <> YOUTUBE_CLIP.
Proof.
  split; [vm_compute; reflexivity|].
  vm_compute. discriminate.
Qed.

(** C5, amended. A segment whose text has a detected quote and an
    identified speaker gets the still image (F1_IMAGE) as fallback. *)
Theorem route_visual_quote_fallback (segment : gmap string string) (use_veo3 : bool)
        (sp q : string) :
  detect_quote (get segment "text" EmptyString) = (Some sp, Some q) ->
  fallback_type (route_visual segment use_veo3) = F1_IMAGE.
Proof.
  intros H. now rewrite (route_visual_quote_branch segment use_veo3 sp q H).
Qed.

Lemma route_visual_quote_fallback_hamilton :
  fallback_type (route_visual hamilton_segment false) = F1_IMAGE.
Proof.
  apply (route_visual_quote_fallback hamilton_segment false
           "Lewis Hamilton" "We pushed the car to its limit,").
  vm_compute. reflexivity.
Defined.

(** C10. Whatever the segment holds and whatever the generated-scene flag
    is, the decision has at least one search query. *)
Theorem route_visual_queries_nonempty (segment : gmap string string) (use_veo3 : bool) :
  search_queries (route_visual segment use_veo3) <> [].
Proof.
  unfold route_visual. cbv zeta.
  destruct (detect_quote _) as [speaker quote].
  destruct (truthy_opt speaker && truthy_opt quote); [discriminate|].
  repeat match goal with
         | |- search_queries (if ?b then _ else _) <> [] => destruct b
         end;
    cbn [search_queries]; apply or_else_nonempty; discriminate.
Qed.

(** ** What a match is: the matcher against a declarative reading *)

Lemma app_cons (a : ascii) (s t : string) : String a s +:+ t = String a (s +:+ t).
Proof. reflexivity. Qed.

Lemma app_nil (t : string) : EmptyString +:+ t = t.
Proof. reflexivity. Qed.

Ltac simpl_app := rewrite ?app_cons, ?app_nil in *; simpl in *.

Lemma length_app (s t : string) :
  String.length (s +:+ t) = String.length s + String.length t.
Proof. induction s as [|c s IH]; simpl_app; [reflexivity|now rewrite IH]. Qed.

Lemma app_assoc_str (s t u : string) : (s +:+ t) +:+ u = s +:+ (t +:+ u).
Proof. induction s as [|c s IH]; simpl_app; [reflexivity|congruence]. Qed.

Lemma prefix_app (t s : string) :
  String.prefix t s = true <-> exists rest, s = t +:+ rest.
Proof.
  revert s; induction t as [|a t IH]; intros [|b s]; simpl.
  - split; [now exists EmptyString|reflexivity].
  - split; [now exists (String b s)|reflexivity].
  - split; [discriminate|intros [rest H]; rewrite app_cons in H; discriminate].
  - destruct (ascii_dec a b) as [->|Hne].
    + rewrite IH. split; intros [rest H]; exists rest.
      * rewrite app_cons. now rewrite H.
      * rewrite app_cons in H. now inversion H.
    + split; [discriminate|intros [rest H]].
      rewrite app_cons in H. congruence.
Qed.

Lemma drop_app (t rest : string) : drop (String.length t) (t +:+ rest) = rest.
Proof.
  induction t as [|a t IH]; [now destruct rest|].
  rewrite app_cons. exact IH.
Qed.

Lemma take_app (w rest : string) :
  take (String.length (w +:+ rest) - String.length rest) (w +:+ rest) = w.
Proof.
  rewrite length_app. replace (_ + _ - _)%nat with (String.length w) by lia.
  induction w as [|a w IH]; [now destruct rest|].
  rewrite app_cons. simpl. now rewrite IH.
Qed.

Lemma app_same_length (s1 s2 t1 t2 : string) :
  s1 +:+ t1 = s2 +:+ t2 -> String.length s1 = String.length s2 ->
  s1 = s2 /\ t1 = t2.
Proof.
  revert s2; induction s1 as [|a s1 IH]; intros [|b s2]; simpl;
    try discriminate; [auto|].
  rewrite !app_cons. intros H L. inversion H; subst.
  destruct (IH s2) as [-> ->]; auto.
Qed.

Module ReSem.

Lemma in_rep p n s rest :
  In rest (rep p n s) <->
  exists w, s = w +:+ rest /\ all_chars p w = true /\ (n <= String.length w)%nat.
Proof.
  revert n; induction s as [|c s IH]; intros n.
  - simpl. split.
    + destruct n; simpl; [|intros []]. intros [<-|[]].
      exists EmptyString. repeat split. simpl; lia.
    + intros ([|a w] & H & _ & L); [|rewrite app_cons in H; discriminate].
      rewrite app_nil in H. simpl in L. subst rest. destruct n; [now left|lia].
  - assert (Hstop : In rest (if (n =? 0)%nat then [String c s] else []) <->
                    rest = String c s /\ n = 0%nat).
    { destruct n; simpl; [|split; [intros []|intros [_ ?]; discriminate]].
      split; [intros [<-|[]]; auto|intros [-> _]; now left]. }
    cbn [rep]. split.
    + intros H.
      assert (Hs : rest = String c s /\ n = 0%nat ->
                   exists w, String c s = w +:+ rest /\ all_chars p w = true
                             /\ (n <= String.length w)%nat).
      { intros [-> ->]. exists EmptyString. repeat split. simpl; lia. }
      destruct (p c) eqn:Pc; [|apply Hs; now apply Hstop].
      apply in_app_iff in H as [H|H]; [|apply Hs; now apply Hstop].
      apply IH in H as (w & -> & Hw & L).
      exists (String c w). rewrite app_cons. simpl. rewrite Pc, Hw.
      repeat split. lia.
    + intros ([|a w] & H & Hw & L).
      * rewrite app_nil in H. simpl in L. subst rest.
        assert (In (String c s) (if (n =? 0)%nat then [String c s] else []))
          by (apply Hstop; split; [reflexivity|lia]).
        destruct (p c); [apply in_app_iff; now right|assumption].
      * rewrite app_cons in H. simpl in Hw, L. inversion H; subst a s.
        apply andb_true_iff in Hw as [Pc Hw]. rewrite Pc.
        apply in_app_iff. left. apply IH. exists w. repeat split; [exact Hw|lia].
Qed.

Lemma in_Str t s cap rest c :
  In (rest, c) (matches (Str t) s cap) <-> s = t +:+ rest /\ c = cap.
Proof.
  simpl. destruct (String.prefix t s) eqn:E.
  - apply prefix_app in E as [r ->]. rewrite drop_app. simpl. split.
    + intros [H|[]]. now inversion H.
    + intros [H ->]. left. f_equal. now apply String.app_inj in H.
  - split; [intros []|]. intros [-> _].
    assert (String.prefix t (t +:+ rest) = true) by (apply prefix_app; eauto).
    congruence.
Qed.

Lemma in_Rep p n s cap rest c :
  In (rest, c) (matches (Rep p n) s cap) <->
  (exists w, s = w +:+ rest /\ all_chars p w = true /\ (n <= String.length w)%nat)
  /\ c = cap.
Proof.
  simpl. rewrite in_map_iff. split.
  - intros (s' & H & Hin). inversion H; subst. split; [now apply in_rep|reflexivity].
  - intros [H ->]. exists rest. split; [reflexivity|now apply in_rep].
Qed.

Lemma in_Cat r1 r2 s cap rest c :
  In (rest, c) (matches (Cat r1 r2) s cap) <->
  exists s1 c1, In (s1, c1) (matches r1 s cap) /\ In (rest, c) (matches r2 s1 c1).
Proof.
  simpl. rewrite in_flat_map. split.
  - intros ([s1 c1] & H1 & H2). now exists s1, c1.
  - intros (s1 & c1 & H1 & H2). now exists (s1, c1).
Qed.

Lemma in_Group r s cap rest c :
  In (rest, c) (matches (Group r) s cap) <->
  (exists c1, In (rest, c1) (matches r s cap))
  /\ c = Some (take (String.length s - String.length rest) s).
Proof.
  simpl. rewrite in_map_iff. split.
  - intros ([s1 c1] & H & Hin). inversion H; subst. split; [now exists c1|reflexivity].
  - intros [[c1 Hin] ->]. now exists (rest, c1).
Qed.

(** [search] returns the first match at the leftmost position that has
    one: nothing matches at any earlier position. *)
Lemma search_Some r s g :
  search r s = Some g ->
  exists pre suf rest,
    s = pre +:+ suf /\ In (rest, g) (matches r suf None) /\
    forall pre' suf', s = pre' +:+ suf' ->
                      (String.length pre' < String.length pre)%nat ->
                      matches r suf' None = [].
Proof.
  induction s as [|a s IH]; simpl.
  - destruct (matches r EmptyString None) as [|[rest c] ms] eqn:E; [discriminate|].
    intros [= <-]. exists EmptyString, EmptyString, rest.
    repeat split; [rewrite E; now left|]. simpl; intros; lia.
  - destruct (matches r (String a s) None) as [|[rest c] ms] eqn:E.
    + intros H. destruct (IH H) as (pre & suf & rest & -> & Hin & Hleft).
      exists (String a pre), suf, rest. repeat split; [exact Hin|].
      intros [|b pre'] suf' Heq L.
      * rewrite app_nil in Heq. now subst suf'.
      * rewrite app_cons in Heq. inversion Heq; subst.
        apply (Hleft pre'); [assumption|simpl in L; lia].
    + intros [= <-]. exists EmptyString, (String a s), rest.
      repeat split; [rewrite E; now left|]. simpl; intros; lia.
Qed.

Lemma search_None r s :
  search r s = None ->
  forall pre suf, s = pre +:+ suf -> matches r suf None = [].
Proof.
  induction s as [|a s IH]; simpl.
  - destruct (matches r EmptyString None) eqn:E; [|discriminate].
    intros _ [|b pre] suf H; [rewrite app_nil in H; now subst|].
    rewrite app_cons in H; discriminate.
  - destruct (matches r (String a s) None) eqn:E; [|discriminate].
    intros H [|b pre] suf Heq; [rewrite app_nil in Heq; now subst|].
    rewrite app_cons in Heq. inversion Heq; subst. now apply (IH H pre).
Qed.

End ReSem.

(** ** Which quote is detected *)

Lemma detect_quote_snd (text : string) :
  snd (detect_quote text)
  = match search quote_re text with Some g => g | None => None end.
Proof. reflexivity. Qed.

(** The quote pattern matches at the head of [s] exactly when [s] opens with
    a quoted span; the group is that span. *)
Lemma quote_re_match (s rest : string) (c : option string) :
  In (rest, c) (matches quote_re s None) <->
  exists q, s = String DQ (q +:+ String DQ rest)
            /\ all_chars not_dq q = true
            /\ (20 <= String.length q)%nat
            /\ c = Some q.
Proof.
  unfold quote_re. cbn [cat]. rewrite ReSem.in_Cat. split.
  - intros (s1 & c1 & H1 & H2).
    apply ReSem.in_Str in H1 as [-> ->].
    apply ReSem.in_Cat in H2 as (s2 & c2 & H2 & H3).
    apply ReSem.in_Group in H2 as [[c' H2] ->].
    apply ReSem.in_Rep in H2 as [(w & -> & Hw & L) _].
    apply ReSem.in_Str in H3 as [-> ->].
    exists w. rewrite take_app. repeat split; assumption.
  - intros (q & -> & Hq & L & ->).
    exists (q +:+ String DQ rest), None. split.
    + apply ReSem.in_Str. split; reflexivity.
    + apply ReSem.in_Cat. exists (String DQ rest), (Some q). split.
      * apply ReSem.in_Group. split; [|now rewrite take_app].
        exists None. apply ReSem.in_Rep. split; [|reflexivity].
        exists q. repeat split; assumption.
      * apply ReSem.in_Str. split; reflexivity.
Qed.

Lemma span_unique (q0 q r0 r : string) :
  all_chars not_dq q0 = true -> all_chars not_dq q = true ->
  q0 +:+ String DQ r0 = q +:+ String DQ r -> q0 = q.
Proof.
  revert q; induction q0 as [|a q0 IH]; intros [|b q]; simpl;
    rewrite ?app_cons, ?app_nil; intros H0 H E.
  - reflexivity.
  - inversion E; subst b. apply andb_true_iff in H as [H _].
    unfold not_dq in H. now rewrite Ascii.eqb_refl in H.
  - inversion E; subst a. apply andb_true_iff in H0 as [H0 _].
    unfold not_dq in H0. now rewrite Ascii.eqb_refl in H0.
  - inversion E; subst b.
    apply andb_true_iff in H0 as [_ H0]. apply andb_true_iff in H as [_ H].
    f_equal. now apply IH.
Qed.

(** C8, as the specification states it, fails: this text holds two distinct
    quoted spans of twenty characters or more, and the quote detected is the
    first one although the second is longer. *)
Lemma detect_quote_not_longest :
  exists pre1 pre2,
    quoted_span two_quotes_text pre1 first_quote /\
    quoted_span two_quotes_text pre2 second_quote /\
    first_quote <> second_quote /\
    snd (detect_quote two_quotes_text) = Some first_quote /\
    (String.length first_quote < String.length second_quote)%nat.
Proof.
  exists EmptyString, (String DQ first_quote +:+ String DQ " he said. ").
  split; [|split; [|split; [|split]]].
  - exists (" he said. " +:+ String DQ second_quote +:+ String DQ EmptyString).
    split; [reflexivity|]. split; [reflexivity|]. vm_compute. lia.
  - exists EmptyString.
    split; [reflexivity|]. split; [reflexivity|]. vm_compute. lia.
  - discriminate.
  - vm_compute. reflexivity.
  - vm_compute. lia.
Qed.

(** C8, amended. When the text holds a quoted span of twenty characters or
    more, the quote detected is the leftmost such span: it is a quoted span
    of the text, no quoted span starts before it, and a quoted span that
    starts where it starts is that very span. *)
Theorem detect_quote_leftmost (text pre q : string) :
  quoted_span text pre q ->
  exists pre0 q0,
    snd (detect_quote text) = Some q0 /\
    quoted_span text pre0 q0 /\
    (String.length pre0 <= String.length pre)%nat /\
    (String.length pre0 = String.length pre -> q0 = q).
Proof.
  intros (post & Htext & Hq & L). rewrite detect_quote_snd.
  assert (Hm : In (post, Some q)
                  (matches quote_re (String DQ (q +:+ String DQ post)) None)).
  { apply quote_re_match. exists q. repeat split; assumption. }
  destruct (search quote_re text) as [g|] eqn:E.
  - apply ReSem.search_Some in E as (pre0 & suf & rest & Hsplit & Hin & Hleft).
    apply quote_re_match in Hin as (q0 & -> & Hq0 & L0 & ->).
    exists pre0, q0. split; [reflexivity|]. split; [|split].
    + exists rest. repeat split; assumption.
    + destruct (le_lt_dec (String.length pre0) (String.length pre)) as [Hle|Hlt];
        [exact Hle|].
      rewrite (Hleft pre _ Htext Hlt) in Hm. destruct Hm.
    + intros Hlen. rewrite Hsplit in Htext.
      apply app_same_length in Htext as [_ Hsuf]; [|exact Hlen].
      inversion Hsuf. eapply span_unique; eassumption.
  - rewrite (ReSem.search_None _ _ E pre _ Htext) in Hm. destruct Hm.
Qed.

Lemma detect_quote_leftmost_two_quotes :
  exists pre0 q0,
    snd (detect_quote two_quotes_text) = Some q0 /\
    quoted_span two_quotes_text pre0 q0 /\
    (String.length pre0
     <= String.length (String DQ first_quote +:+ String DQ " he said. "))%nat /\
    (String.length pre0
     = String.length (String DQ first_quote +:+ String DQ " he said. ") ->
     q0 = second_quote).
Proof.
  apply (detect_quote_leftmost two_quotes_text
           (String DQ first_quote +:+ String DQ " he said. ") second_quote).
  exists EmptyString.
  split; [reflexivity|]. split; [reflexivity|]. vm_compute. lia.
Defined.

(** ** Clip planning *)

Local Open Scope Q_scope.

Lemma floor_le_ceiling (x : Q) : (Qfloor x <= Qceiling x)%Z.
Proof.
  rewrite Zle_Qle. apply Qle_trans with x; [apply Qfloor_le|apply Qle_ceiling].
Qed.

Lemma ceiling_le_floor_succ (x : Q) : (Qceiling x <= Qfloor x + 1)%Z.
Proof.
  assert (Qceiling x - 1 < Qfloor x + 1)%Z; [|lia].
  rewrite Zlt_Qlt. apply Qlt_trans with x; [apply Qceiling_lt|apply Qlt_floor].
Qed.

Lemma floor_eq_ceiling_integer (x : Q) :
  Qceiling x = Qfloor x -> x == inject_Z (Qfloor x).
Proof.
  intros H. apply Qle_antisym; [|apply Qfloor_le].
  rewrite <- H. apply Qle_ceiling.
Qed.

Lemma integer_floor_ceiling (x : Q) (k : Z) :
  x == inject_Z k -> Qfloor x = k /\ Qceiling x = k.
Proof.
  intros H. rewrite H. split; [apply Qfloor_Z|apply Qceiling_Z].
Qed.

Lemma num_clips_floor (d : Q) :
  num_clips d = Z.max 2 (Qfloor (d / MAX_CLIP_DURATION) + 1).
Proof.
  unfold num_clips, py_int.
  destruct (Qle_bool 0 (d / MAX_CLIP_DURATION)) eqn:E; [reflexivity|].
  assert (Hneg : d / MAX_CLIP_DURATION < 0).
  { apply Qnot_le_lt. intros H. apply Qle_bool_iff in H. congruence. }
  assert (Hc : (Qceiling (d / MAX_CLIP_DURATION) <= 0)%Z).
  { assert (Qceiling (d / MAX_CLIP_DURATION) - 1 < 0)%Z; [|lia].
    rewrite Zlt_Qlt. eapply Qlt_trans; [apply Qceiling_lt|exact Hneg]. }
  pose proof (floor_le_ceiling (d / MAX_CLIP_DURATION)). lia.
Qed.

Lemma multiple_of_max (d : Q) (k : Z) :
  d == inject_Z (5 * k) <-> d / MAX_CLIP_DURATION == inject_Z k.
Proof.
  unfold MAX_CLIP_DURATION. rewrite inject_Z_mult. split; intros H.
  - rewrite H. field.
  - assert (E : d == d / 5.0 * 5) by field. rewrite E, H. ring.
Qed.

(** C2, as the specification states it, fails: a ten-second segment is
    planned with three shots, and max(2, ceil(10/5)) is two. *)
Lemma num_clips_not_ceiling :
  num_clips 10 = 3%Z /\
  Z.max 2 (Qceiling (10 / MAX_CLIP_DURATION)) = 2%Z /\
  num_clips 10 <> Z.max 2 (Qceiling (10 / MAX_CLIP_DURATION)).
Proof. vm_compute. repeat split; discriminate. Qed.

(** C2, amended. With [MAX_CLIP_DURATION] fixed at 5 seconds, the number of
    shots planned for a target duration [d] is max(2, floor(d/5) + 1); it is
    max(2, ceil(d/5)) exactly when [d] is not a whole multiple of 5 seconds
    from 10 seconds on; and a 13-second target gets 3 shots of 13/3 seconds,
    about 4.333 s each. *)
Theorem num_clips_formula (d : Q) :
  MAX_CLIP_DURATION == 5 /\
  num_clips d = Z.max 2 (Qfloor (d / MAX_CLIP_DURATION) + 1) /\
  (num_clips d = Z.max 2 (Qceiling (d / MAX_CLIP_DURATION)) <->
   ~ exists k : Z, (2 <= k)%Z /\ d == inject_Z (5 * k)) /\
  (d == 13 ->
   num_clips d = 3%Z /\
   clip_duration d (num_clips d) == 13 / 3 /\
   4.333 < clip_duration d (num_clips d) < 4.334).
Proof.
  split; [reflexivity|]. split; [apply num_clips_floor|]. split.
  - rewrite num_clips_floor. set (x := d / MAX_CLIP_DURATION). split.
    + intros H (k & Hk & Hd). apply multiple_of_max in Hd. fold x in Hd.
      apply integer_floor_ceiling in Hd as [Hf Hc]. lia.
    + intros H.
      pose proof (floor_le_ceiling x). pose proof (ceiling_le_floor_succ x).
      destruct (Z.eq_dec (Qceiling x) (Qfloor x)) as [E|E]; [|lia].
      destruct (Z_lt_le_dec (Qfloor x) 2) as [Hlt|Hge]; [lia|].
      exfalso. apply H. exists (Qfloor x). split; [exact Hge|].
      apply multiple_of_max. now apply floor_eq_ceiling_integer.
  - intros H13.
    assert (Hn : num_clips d = 3%Z).
    { rewrite num_clips_floor. rewrite H13. reflexivity. }
    rewrite Hn. unfold clip_duration. rewrite H13.
    split; [reflexivity|]. split; [reflexivity|]. split; reflexivity.
Qed.

Lemma num_clips_formula_13 :
  num_clips 13 = 3%Z /\
  clip_duration 13 (num_clips 13) == 13 / 3 /\
  4.333 < clip_duration 13 (num_clips 13) < 4.334.
Proof.
  apply (num_clips_formula 13). reflexivity.
Defined.

Lemma Qsum_app (l1 l2 : list Q) : Qsum (l1 ++ l2) == Qsum l1 + Qsum l2.
Proof.
  induction l1 as [|a l1 IH]; simpl; [ring|]. rewrite IH. ring.
Qed.

Lemma Qsum_const (A : Type) (f : A -> Q) (c : Q) (l : list A) :
  (forall a, In a l -> f a == c) ->
  Qsum (map f l) == inject_Z (Z.of_nat (length l)) * c.
Proof.
  induction l as [|a l IH]; intros H.
  - simpl. ring.
  - cbn [map Qsum fold_right length]. fold (Qsum (map f l)).
    rewrite IH by (intros; apply H; now right).
    rewrite (H a) by now left.
    rewrite Nat2Z.inj_succ, <- Z.add_1_r, inject_Z_plus. ring.
Qed.

Lemma range_succ (n : Z) :
  (1 <= n)%Z -> range n = range (n - 1) ++ [(n - 1)%Z].
Proof.
  intros H. unfold range.
  replace (Z.to_nat n) with (S (Z.to_nat (n - 1))) by lia.
  rewrite seq_S, map_app. simpl. do 2 f_equal. lia.
Qed.

Lemma in_range (n i : Z) : In i (range n) -> (0 <= i < n)%Z.
Proof.
  unfold range. rewrite in_map_iff. intros (k & <- & H).
  apply in_seq in H. lia.
Qed.

Lemma length_range (n : Z) : length (range n) = Z.to_nat n.
Proof. unfold range. now rewrite length_map, length_seq. Qed.

(** *** The plan in floating point *)

Import F64.

(** [round64] against the binary64 arithmetic of the processor, on the
    operations of the plan for 26 seconds, on a quotient that is not a
    binary fraction, on two ties in the subnormal range, on a product that
    rounds up to the next power of two, and on a negative quotient. *)
Lemma round64_agrees :
  same (26 / 6)%float (fdiv 26 6) = true /\
  same (5 * (26 / 6))%float (fmul 5 (fdiv 26 6)) = true /\
  same (26 - 5 * (26 / 6))%float (fsub 26 (fmul 5 (fdiv 26 6))) = true /\
  same (1 / 10)%float (fdiv 1 10) = true /\
  same (0x1p-1074 / 2)%float (fdiv (2 ^ (-1074)) 2) = true /\
  same (3 * 0x1p-1074 / 2)%float (fdiv (fmul 3 (2 ^ (-1074))) 2) = true /\
  same (0x1.fffffffffffffp+0 * 0x1.fffffffffffffp+0)%float
       (fmul (2 - 2 ^ (-52)) (2 - 2 ^ (-52))) = true /\
  same (-7 / 3)%float (fdiv (-7) 3) = true.
Proof. repeat split; vm_compute; reflexivity. Qed.

(** *** Binary64 rounding

    The rounded integer is at most one half away. *)
Lemma rhe_near (x : Q) : Qabs (inject_Z (round_half_even x) - x) <= 1 # 2.
Proof.
  unfold round_half_even. cbv zeta.
  pose proof (Qfloor_le x) as Hl. pose proof (Qlt_floor x) as Hu.
  rewrite inject_Z_plus in Hu. change (inject_Z 1) with 1 in Hu.
  apply Qabs_Qle_condition.
  destruct (Qcompare (x - inject_Z (Qfloor x)) (1 # 2)) eqn:E.
  - apply Qeq_alt in E.
    destruct (Z.even (Qfloor x)); rewrite ?inject_Z_plus;
      change (inject_Z 1) with 1; split; lra.
  - apply Qlt_alt in E. split; lra.
  - apply Qgt_alt in E. rewrite inject_Z_plus. change (inject_Z 1) with 1.
    split; lra.
Qed.

(** An integer rounds to itself. *)
Lemma rhe_int (x : Q) (k : Z) : x == inject_Z k -> round_half_even x = k.
Proof.
  intros H. unfold round_half_even. cbv zeta.
  assert (Hf : Qfloor x = k) by (rewrite H; apply Qfloor_Z).
  rewrite Hf.
  assert (E : Qcompare (x - inject_Z k) (1 # 2) = Lt) by (apply (proj1 (Qlt_alt _ _)); lra).
  now rewrite E.
Qed.

Lemma pow2_pos (e : Z) : 0 < 2 ^ e.
Proof. apply Qpower_0_lt. reflexivity. Qed.

(** [ilog2] does not overshoot. *)
Lemma ilog2_le (x : Q) : 0 < x -> 2 ^ ilog2 x <= x.
Proof.
  intros Hx. unfold ilog2. cbv zeta.
  destruct x as [a b]. cbn [Qnum Qden].
  assert (Ha : (0 < a)%Z).
  { unfold Qlt in Hx. cbn in Hx. lia. }
  set (la := Z.log2 a). set (lb := Z.log2 (Z.pos b)).
  destruct (Qle_bool (2 ^ (la - lb)) (a # b)) eqn:E.
  - now apply Qle_bool_iff.
  - destruct (Z.log2_spec a Ha) as [Hla _].
    destruct (Z.log2_spec (Z.pos b) eq_refl) as [_ Hlb].
    fold la in Hla. fold lb in Hlb.
    assert (H0la : (0 <= la)%Z) by apply Z.log2_nonneg.
    assert (H0lb : (0 <= lb)%Z) by apply Z.log2_nonneg.
    assert (Qa : 2 ^ la <= inject_Z a).
    { rewrite <- (Zpower_Qpower 2 la H0la). rewrite <- Zle_Qle. exact Hla. }
    assert (Qb : inject_Z (Z.pos b) <= 2 ^ (lb + 1)).
    { rewrite <- (Zpower_Qpower 2 (lb + 1)) by lia. rewrite <- Zle_Qle.
      unfold Z.succ in Hlb. lia. }
    rewrite (Qmake_Qdiv a b).
    apply Qle_shift_div_l; [reflexivity|].
    assert (Hsplit : 2 ^ la == 2 ^ (la - lb - 1) * 2 ^ (lb + 1)).
    { rewrite <- Qpower_plus by discriminate. f_equiv. lia. }
    pose proof (pow2_pos (la - lb - 1)) as Hp.
    apply Qle_trans with (2 ^ (la - lb - 1) * 2 ^ (lb + 1)); [|lra].
    apply Qmult_le_l; assumption.
Qed.

(** The standard model of binary64 arithmetic: a relative error of at most
    [eps], or an absolute error of at most [eta] in the subnormal range. *)
Lemma round64_error (x : Q) :
  Qabs (round64 x - x) <= eps * Qabs x + eta.
Proof.
  unfold round64.
  pose proof (Qabs_nonneg x) as Hax.
  assert (Heps : 0 < eps) by apply pow2_pos.
  assert (Heta : 0 < eta) by apply pow2_pos.
  destruct (Qeq_bool x 0) eqn:E0.
  - apply Qeq_bool_iff in E0.
    assert (Hp : 0 <= eps * Qabs x) by (apply Qmult_le_0_compat; lra).
    apply Qabs_Qle_condition. split; lra.
  - cbv zeta.
    assert (Hx : 0 < Qabs x).
    { apply Qeq_bool_neq in E0. 
      destruct (Qlt_le_dec 0 (Qabs x)) as [H|H]; [exact H|].
      exfalso. apply E0. apply Qabs_Qle_condition in H. lra. }
    set (e := Z.max (ilog2 (Qabs x) - 52) emin).
    pose proof (pow2_pos e) as He.
    pose proof (rhe_near (x / 2 ^ e)) as Hn.
    set (m := inject_Z (round_half_even (x / 2 ^ e))) in *.
    assert (Hd : m * 2 ^ e - x == (m - x / 2 ^ e) * 2 ^ e) by (field; lra).
    rewrite Hd, Qabs_Qmult, (Qabs_pos (2 ^ e)) by lra.
    assert (Hhalf : Qabs (m - x / 2 ^ e) * 2 ^ e <= (1 # 2) * 2 ^ e).
    { apply Qmult_le_compat_r; lra. }
    apply Qle_trans with ((1 # 2) * 2 ^ e); [exact Hhalf|].
    destruct (Z.max_spec (ilog2 (Qabs x) - 52) emin) as [[_ Hm]|[_ Hm]];
      fold e in Hm.
    + (* subnormal range *)
      assert (Hh : (1 # 2) * 2 ^ e == eta).
      { rewrite Hm. reflexivity. }
      rewrite Hh. nra.
    + pose proof (ilog2_le (Qabs x) Hx) as Hl.
      assert (Hs : 2 ^ ilog2 (Qabs x) == 2 ^ e * 2 ^ 52).
      { rewrite <- Qpower_plus by discriminate. f_equiv. lia. }
      assert (Hh : (1 # 2) * 2 ^ e == eps * (2 ^ e * 2 ^ 52)).
      { unfold eps. 
        assert (E53: 2 ^ (-53) * 2 ^ 52 == 1 # 2) by reflexivity.
        transitivity ((2 ^ (-53) * 2 ^ 52) * 2 ^ e); [rewrite E53; reflexivity|ring]. }
      rewrite Hh, <- Hs.
      assert (eps * 2 ^ ilog2 (Qabs x) <= eps * Qabs x).
      { apply Qmult_le_l; assumption. }
      lra.
Qed.

Lemma ilog2_small (x : Q) (m : Z) : 0 < x -> x < 2 ^ m -> (ilog2 x < m)%Z.
Proof.
  intros Hx Hm. pose proof (ilog2_le x Hx) as Hl.
  apply (Qpower_lt_compat_l_inv 2); [lra|reflexivity].
Qed.

(** Integers below 2^53 in absolute value are binary64 numbers. *)
Lemma of_int_exact (z : Z) :
  (Z.abs z < 2 ^ 53)%Z -> of_int z == inject_Z z.
Proof.
  intros Hz. unfold of_int, round64.
  destruct (Qeq_bool (inject_Z z) 0) eqn:E0.
  - apply Qeq_bool_iff in E0. now rewrite E0.
  - cbv zeta. apply Qeq_bool_neq in E0.
    assert (Hne : z <> 0%Z) by (intros ->; now apply E0).
    assert (Habs : Qabs (inject_Z z) == inject_Z (Z.abs z)).
    { unfold Qabs, inject_Z. reflexivity. }
    assert (Hpos : 0 < Qabs (inject_Z z)).
    { rewrite Habs. change 0 with (inject_Z 0). rewrite <- Zlt_Qlt. lia. }
    assert (Hlt : Qabs (inject_Z z) < 2 ^ 53).
    { rewrite Habs. change (2 ^ 53) with (inject_Z (2 ^ 53)).
      now rewrite <- Zlt_Qlt. }
    pose proof (ilog2_small _ 53 Hpos Hlt) as Hl.
    set (e := Z.max (ilog2 (Qabs (inject_Z z)) - 52) emin).
    assert (He : (e <= 0)%Z) by (unfold e, emin; lia).
    assert (Hpow : 2 ^ e == / inject_Z (2 ^ (- e))).
    { rewrite (Zpower_Qpower 2 (- e)) by lia.
      rewrite <- Qpower_opp. f_equiv. lia. }
    assert (Hnz : ~ inject_Z (2 ^ (- e)) == 0).
    { change 0 with (inject_Z 0). rewrite inject_Z_injective.
      apply Z.pow_nonzero; lia. }
    assert (Hy : inject_Z z / 2 ^ e == inject_Z (z * 2 ^ (- e))).
    { rewrite Hpow, inject_Z_mult. field. exact Hnz. }
    rewrite (rhe_int _ _ Hy), Hpow, inject_Z_mult. field. exact Hnz.
Qed.

Lemma scale_bounds (k a b : Q) :
  0 <= k -> - b <= a <= b -> - (k * b) <= k * a <= k * b.
Proof.
  intros Hk [H1 H2].
  assert (P1 : 0 <= k * (b - a)) by (apply Qmult_le_0_compat; lra).
  assert (P2 : 0 <= k * (a + b)) by (apply Qmult_le_0_compat; lra).
  split; lra.
Qed.

Lemma abs_bound (x m : Q) : - m <= x <= m -> Qabs x <= m.
Proof. intros H. now apply Qabs_Qle_condition. Qed.

Lemma bound_abs (x m : Q) : Qabs x <= m -> - m <= x <= m.
Proof. intros H. now apply Qabs_Qle_condition. Qed.

Lemma eps_value : eps == 1 # 9007199254740992.
Proof. reflexivity. Qed.

Lemma eta_small : 0 < eta /\ eta <= 1 # 1000000000000000000000000000000.
Proof. split; [reflexivity|]. vm_compute. discriminate. Qed.

(** The rounding errors of the three operations that make the plan, put
    together: [c] is the rounded [d / n], [p] the rounded [(n - 1) * c] and
    [last] the rounded [d - p]. *)
Lemma plan_error (d n c p last : Q) :
  0 <= d -> 2 <= n -> n <= 2 ^ 53 ->
  Qabs (c - d / n) <= eps * Qabs (d / n) + eta ->
  Qabs (p - (n - 1) * c) <= eps * Qabs ((n - 1) * c) + eta ->
  Qabs (last - (d - p)) <= eps * Qabs (d - p) + eta ->
  Qabs ((n - 1) * c + last - d) <= d * 2 ^ (-52) + 2 ^ (-1072) /\
  Qabs (c - d / n) <= d * 2 ^ (-51) + 2 ^ (-1021) /\
  Qabs (last - d / n) <= d * 2 ^ (-51) + 2 ^ (-1021).
Proof.
  intros Hd Hn2 Hn53 Hc Hp Hl.
  destruct eta_small as [Heta0 Heta].
  pose proof eps_value as Heps.
  assert (T1 : 2 ^ (-52) == 2 * eps) by reflexivity.
  assert (T2 : 2 ^ (-51) == 4 * eps) by reflexivity.
  assert (T3 : 2 ^ (-1072) == 8 * eta) by reflexivity.
  assert (T4 : 2 ^ (-1021) == 2 ^ 54 * eta) by reflexivity.
  assert (T5 : 2 ^ 53 == 9007199254740992) by reflexivity.
  assert (T6 : 2 ^ 54 == 18014398509481984) by reflexivity.
  rewrite T1, T2, T3, T4, T6. rewrite T5 in Hn53. clear T1 T2 T3 T4 T5 T6.
  set (x := d / n) in *.
  assert (Hnx : n * x == d) by (unfold x; field; lra).
  assert (Hx0 : 0 <= x).
  { unfold x. apply Qle_shift_div_l; lra. }
  assert (Hxd : 2 * x <= d).
  { assert (0 <= (n - 2) * x) by (apply Qmult_le_0_compat; lra). lra. }
  rewrite (Qabs_pos x Hx0) in Hc.
  apply bound_abs in Hc.
  set (k := n - 1) in *.
  assert (Hk0 : 0 <= k) by (unfold k; lra).
  assert (Hkx : k * x == d - x) by (unfold k; lra).
  pose proof (scale_bounds k (c - x) (eps * x + eta) Hk0 Hc) as Hka.
  assert (Hke : k * eta <= 9007199254740992 * eta).
  { apply Qmult_le_compat_r; [unfold k|]; lra. }
  assert (Hke0 : 0 <= k * eta) by (apply Qmult_le_0_compat; lra).
  assert (Ekc : k * c == k * x + k * (c - x)) by ring.
  assert (Eka : k * (eps * x + eta) == eps * (k * x) + k * eta) by ring.
  set (kc := k * c) in *. set (ka := k * (c - x)) in *.
  set (ke := k * eta) in *. set (kx := k * x) in *.
  rewrite Eka in Hka. clear Eka.
  assert (Hkc : Qabs kc <= kx + (eps * kx + ke)).
  { apply abs_bound. split; lra. }
  assert (He1 : Qabs (p - kc) <= eps * (kx + (eps * kx + ke)) + eta).
  { eapply Qle_trans; [exact Hp|]. 
    assert (eps * Qabs kc <= eps * (kx + (eps * kx + ke))).
    { apply Qmult_le_l; [rewrite Heps; reflexivity|exact Hkc]. }
    lra. }
  apply bound_abs in He1.
  assert (Hdp : Qabs (d - p) <= x + (eps * kx + ke)
                                + (eps * (kx + (eps * kx + ke)) + eta)).
  { apply abs_bound. split; lra. }
  assert (He2 : Qabs (last - (d - p))
                <= eps * (x + (eps * kx + ke)
                          + (eps * (kx + (eps * kx + ke)) + eta)) + eta).
  { eapply Qle_trans; [exact Hl|].
    assert (eps * Qabs (d - p)
            <= eps * (x + (eps * kx + ke)
                      + (eps * (kx + (eps * kx + ke)) + eta))).
    { apply Qmult_le_l; [rewrite Heps; reflexivity|exact Hdp]. }
    lra. }
  apply bound_abs in He2.
  rewrite Heps in *.
  split; [|split]; apply abs_bound; split; lra.
Qed.

Lemma num_clips_float_range (d : Q) :
  0 <= d <= 1000000000 -> (2 <= Rounded.num_clips d < 2 ^ 53)%Z.
Proof.
  intros [Hd0 Hd1]. unfold Rounded.num_clips. split; [lia|].
  apply Z.max_lub_lt; [reflexivity|].
  set (r := fdiv d MAX_CLIP_DURATION).
  assert (Hr : r <= 210000000).
  { pose proof (round64_error (d / MAX_CLIP_DURATION)) as He.
    fold (fdiv d MAX_CLIP_DURATION) in He. fold r in He.
    assert (Hq0 : 0 <= d / MAX_CLIP_DURATION)
      by (apply Qle_shift_div_l; [reflexivity|lra]).
    assert (Hq1 : d / MAX_CLIP_DURATION <= 200000000).
    { apply Qle_shift_div_r; [reflexivity|].
      unfold MAX_CLIP_DURATION. lra. }
    rewrite (Qabs_pos _ Hq0) in He. apply bound_abs in He.
    destruct eta_small as [_ Heta]. pose proof eps_value as Heps.
    rewrite Heps in He. set (q := d / MAX_CLIP_DURATION) in *. lra. }
  assert (Hi : inject_Z (py_int r) < r + 1).
  { unfold py_int. destruct (Qle_bool 0 r).
    - pose proof (Qfloor_le r). lra.
    - pose proof (Qceiling_lt r) as Hc.
      unfold Z.sub in Hc. rewrite inject_Z_plus, inject_Z_opp in Hc.
      change (inject_Z 1) with 1 in Hc. lra. }
  assert (Hz : inject_Z (py_int r) < inject_Z 210000001).
  { change (inject_Z 210000001) with (210000000 + 1). lra. }
  rewrite <- Zlt_Qlt in Hz. lia.
Qed.

Lemma shot_durations_split (d : Q) (n : Z) :
  (2 <= n)%Z ->
  Rounded.shot_durations d n
  = map (fun _ => Rounded.clip_duration d n) (range (n - 1))
    ++ [fsub d (fmul (of_int (n - 1)) (Rounded.clip_duration d n))].
Proof.
  intros Hn. unfold Rounded.shot_durations. rewrite (range_succ n) by lia.
  rewrite map_app. f_equal.
  - apply map_ext_in. intros i Hi. apply in_range in Hi.
    unfold Rounded.this_duration.
    now replace (i <? n - 1)%Z with true by (symmetry; apply Z.ltb_lt; lia).
  - cbn [map]. unfold Rounded.this_duration.
    now rewrite Z.ltb_irrefl.
Qed.

(** C3. In binary64 arithmetic, a plan for a target duration [d] of at
    most 10^9 seconds with [n >= 2] planned shots (any [n] below 2^53, and
    the planned [num_clips d] is one), each shot but the last lasting the
    rounded [d / n] and the last one the rounded [d] minus the rounded
    duration of the shots before it, has [n] shots, [n - 1] equal ones and
    the last; every shot is within
    [d * 2^-51 + 2^-1021] of [d / n]; and the durations sum (as numbers,
    without further rounding) to [d] within [d * 2^-52 + 2^-1072], which is
    less than 1e-6. *)
Theorem shot_durations_sum (d : Q) (n : Z) :
  0 <= d <= 1000000000 ->
  (2 <= n < 2 ^ 53)%Z ->
  (2 <= Rounded.num_clips d < 2 ^ 53)%Z /\
  length (Rounded.shot_durations d n) = Z.to_nat n /\
  Rounded.shot_durations d n
  = repeat (fdiv d (of_int n)) (Z.to_nat (n - 1))
    ++ [fsub d (fmul (of_int (n - 1)) (fdiv d (of_int n)))] /\
  List.Forall (fun seconds =>
            Qabs (seconds - d / inject_Z n) <= d * 2 ^ (-51) + 2 ^ (-1021))
         (Rounded.shot_durations d n) /\
  Qabs (Qsum (Rounded.shot_durations d n) - d) <= d * 2 ^ (-52) + 2 ^ (-1072) /\
  Qabs (Qsum (Rounded.shot_durations d n) - d) <= 1e-6.
Proof.
  intros Hd [Hn2 Hn53].
  split; [now apply num_clips_float_range|].
  split; [unfold Rounded.shot_durations; now rewrite length_map, length_range|].
  split.
  { rewrite (shot_durations_split d n Hn2). f_equal.
    rewrite List.map_const, length_range. reflexivity. }
  set (c := Rounded.clip_duration d n).
  set (p := fmul (of_int (n - 1)) c).
  set (last := fsub d p).
  assert (Hnq : of_int n == inject_Z n) by (apply of_int_exact; lia).
  assert (Hkq : of_int (n - 1) == inject_Z n - 1).
  { rewrite of_int_exact by lia.
    unfold Z.sub. rewrite inject_Z_plus, inject_Z_opp. reflexivity. }
  assert (N2 : 2 <= inject_Z n).
  { change 2 with (inject_Z 2). now rewrite <- Zle_Qle. }
  assert (N53 : inject_Z n <= 2 ^ 53).
  { change (2 ^ 53) with (inject_Z (2 ^ 53)). rewrite <- Zle_Qle. lia. }
  assert (Hc : Qabs (c - d / inject_Z n) <= eps * Qabs (d / inject_Z n) + eta).
  { pose proof (round64_error (d / of_int n)) as H.
    fold (fdiv d (of_int n)) in H. fold (Rounded.clip_duration d n) in H. fold c in H.
    now rewrite Hnq in H. }
  assert (Hp : Qabs (p - (inject_Z n - 1) * c)
               <= eps * Qabs ((inject_Z n - 1) * c) + eta).
  { pose proof (round64_error (of_int (n - 1) * c)) as H.
    fold (fmul (of_int (n - 1)) c) in H. fold p in H.
    now rewrite Hkq in H. }
  assert (Hl : Qabs (last - (d - p)) <= eps * Qabs (d - p) + eta)
    by apply round64_error.
  destruct (plan_error d (inject_Z n) c p last (proj1 Hd) N2 N53 Hc Hp Hl)
    as (Hsum & Hc' & Hlast).
  rewrite (shot_durations_split d n Hn2). fold c p last.
  assert (Esum : Qsum (map (fun _ : Z => c) (range (n - 1)) ++ [last])
                 == (inject_Z n - 1) * c + last).
  { rewrite Qsum_app, (Qsum_const _ _ c) by reflexivity.
    rewrite length_range, Z2Nat.id by lia. cbn [Qsum fold_right].
    unfold Z.sub. rewrite inject_Z_plus, inject_Z_opp.
    change (inject_Z 1) with 1. ring. }
  split; [|split].
  - apply List.Forall_app. split.
    + apply List.Forall_forall. intros s Hs. apply in_map_iff in Hs.
      destruct Hs as (i & <- & _). exact Hc'.
    + constructor; [exact Hlast|constructor].
  - now rewrite Esum.
  - rewrite Esum. eapply Qle_trans; [exact Hsum|].
    assert (T1 : 2 ^ (-52) == 2 * eps) by reflexivity.
    assert (T3 : 2 ^ (-1072) == 8 * eta) by reflexivity.
    destruct eta_small as [_ Heta]. pose proof eps_value as Heps.
    assert (T6 : 1e-6 == 1 # 1000000) by reflexivity.
    rewrite T1, T3, T6, Heps. lra.
Qed.

Lemma shot_durations_sum_26 :
  (2 <= Rounded.num_clips 26 < 2 ^ 53)%Z /\
  length (Rounded.shot_durations 26 6) = 6%nat /\
  Rounded.shot_durations 26 6
  = repeat (fdiv 26 (of_int 6)) 5
    ++ [fsub 26 (fmul (of_int 5) (fdiv 26 (of_int 6)))] /\
  List.Forall (fun seconds =>
            Qabs (seconds - 26 / 6) <= 26 * 2 ^ (-51) + 2 ^ (-1021))
         (Rounded.shot_durations 26 6) /\
  Qabs (Qsum (Rounded.shot_durations 26 6) - 26) <= 26 * 2 ^ (-52) + 2 ^ (-1072) /\
  Qabs (Qsum (Rounded.shot_durations 26 6) - 26) <= 1e-6.
Proof.
  apply (shot_durations_sum 26 6); [split; discriminate|lia].
Defined.

(** The sum need not be [d] itself: for 26 seconds and 6 shots the last
    shot lasts 4.333333333333336 s against 4.333333333333333 s for the
    others, and the sum exceeds 26 by 2^-50. *)
Lemma rounded_plan_26 :
  Rounded.num_clips 26 = 6%Z /\
  Rounded.clip_duration 26 6 == 4878899596318037 # 1125899906842624 /\
  Rounded.this_duration 26 6 5 == 609862449539755 # 140737488355328 /\
  Rounded.clip_duration 26 6 < Rounded.this_duration 26 6 5 /\
  Qsum (Rounded.shot_durations 26 6) - 26 == 1 # 1125899906842624.
Proof.
  split; [vm_compute; reflexivity|]. repeat split; vm_compute; reflexivity.
Qed.

(** ** Crossfade offsets *)

Lemma xfade_chain_sorted (step : Q) (rounds : nat) : forall current_offset,
  0 < step ->
  StronglySorted Qlt (xfade_chain step current_offset rounds) /\
  Forall (Qlt current_offset) (xfade_chain step current_offset rounds).
Proof.
  induction rounds as [|k IH]; intros cur Hstep; simpl.
  - split; constructor.
  - destruct (IH (cur + step) Hstep) as [Hs Hall]. split.
    + constructor; assumption.
    + constructor; [lra|].
      eapply List.Forall_impl; [|exact Hall]. intros a Ha. simpl in Ha. lra.
Qed.

Lemma last_cons_default (a b : Q) (l : list Q) : List.last (a :: l) b = List.last l a.
Proof.
  revert a b; induction l as [|c l IH]; intros a b; [reflexivity|].
  change (List.last (a :: c :: l) b) with (List.last (c :: l) b).
  now rewrite (IH c b), (IH c a).
Qed.

Lemma xfade_chain_last (step : Q) (rounds : nat) : forall current_offset,
  List.last (xfade_chain step current_offset rounds) current_offset
  == current_offset + inject_Z (Z.of_nat rounds) * step.
Proof.
  induction rounds as [|k IH]; intros cur.
  - simpl. ring.
  - cbn [xfade_chain]. rewrite last_cons_default, IH.
    rewrite Nat2Z.inj_succ, <- Z.add_1_r, inject_Z_plus. ring.
Qed.

Lemma xfade_offsets_unfold (d : Q) (n : Z) (m : nat) :
  (2 <= m)%nat ->
  xfade_offsets d n m
  = (clip_duration d n - xfade_duration d n)
      :: xfade_chain (clip_duration d n - xfade_duration d n)
                     (clip_duration d n - xfade_duration d n) (m - 2).
Proof.
  intros Hm. unfold xfade_offsets.
  destruct (m =? 2)%nat eqn:E; [|reflexivity].
  apply Nat.eqb_eq in E. subst m. reflexivity.
Qed.

Lemma num_clips_ge_2 (d : Q) : (2 <= num_clips d)%Z.
Proof. unfold num_clips. lia. Qed.

Lemma num_clips_zero (d : Q) : d == 0 -> num_clips d = 2%Z.
Proof. intros H. rewrite num_clips_floor, H. reflexivity. Qed.

Lemma clip_duration_mult (d : Q) (n : Z) :
  (2 <= n)%Z -> clip_duration d n * inject_Z n == d.
Proof.
  intros Hn. unfold clip_duration. field.
  intros H0. assert (0 < inject_Z n); [|lra].
  change 0 with (inject_Z 0). rewrite <- Zlt_Qlt. lia.
Qed.

(** C7. For a target duration [d >= 0] planned with [num_clips d] shots of
    which [m >= 2] were produced, all joined by crossfades of
    [min(CROSSFADE_DURATION, clip_duration / 4)], the [m - 1] offsets
    computed left to right are strictly increasing, and the last offset
    plus the crossfade duration does not exceed [d]. *)
Theorem xfade_offsets_increasing (d : Q) (m : nat) :
  0 <= d -> (2 <= m)%nat -> (Z.of_nat m <= num_clips d)%Z ->
  length (xfade_offsets d (num_clips d) m) = (m - 1)%nat /\
  StronglySorted Qlt (xfade_offsets d (num_clips d) m) /\
  List.last (xfade_offsets d (num_clips d) m) 0 + xfade_duration d (num_clips d) <= d.
Proof.
  intros Hd Hm Hmn.
  pose proof (num_clips_ge_2 d) as Hn2.
  pose proof (clip_duration_mult d (num_clips d) Hn2) as Hmul.
  rewrite (xfade_offsets_unfold d (num_clips d) m Hm).
  set (n := num_clips d) in *.
  set (c := clip_duration d n) in *.
  set (x := xfade_duration d n) in *.
  assert (HN : 2 <= inject_Z n) by (change 2 with (inject_Z 2); rewrite <- Zle_Qle; lia).
  assert (Hc : 0 <= c).
  { destruct (Qlt_le_dec c 0) as [Hneg|]; [exfalso|assumption].
    assert (0 <= (0 - c) * (inject_Z n - 2)) by (apply Qmult_le_0_compat; lra).
    lra. }
  assert (Hx : 0 <= x /\ 4 * x <= c).
  { assert (E : c == c / 4 * 4) by field.
    unfold x, xfade_duration. fold c. set (q := c / 4) in *. split.
    - apply Q.min_glb; [discriminate|lra].
    - pose proof (Q.le_min_r CROSSFADE_DURATION q). lra. }
  split; [|split].
  - cbn [length].
    assert (forall k s q, length (xfade_chain s q k) = k) as Hlen
      by (induction k; intros; simpl; [reflexivity|now rewrite IHk]).
    rewrite Hlen. lia.
  - destruct (Qlt_le_dec 0 d) as [Hpos|Hzero].
    + assert (Hstep : 0 < c - x).
      { assert (0 < c); [|lra].
        destruct (Qlt_le_dec 0 c) as [|Hle]; [assumption|exfalso].
        assert (Hc0 : c == 0) by lra. rewrite Hc0 in Hmul. lra. }
      destruct (xfade_chain_sorted (c - x) (m - 2) (c - x) Hstep).
      constructor; assumption.
    + assert (Hd0 : d == 0) by lra.
      assert (Hm2 : m = 2%nat).
      { pose proof (num_clips_zero d Hd0). unfold n in *. lia. }
      rewrite Hm2. simpl. repeat constructor.
  - rewrite last_cons_default, xfade_chain_last.
    assert (HM : 0 <= inject_Z (Z.of_nat (m - 2)))
      by (change 0 with (inject_Z 0); rewrite <- Zle_Qle; lia).
    assert (HMn : inject_Z (Z.of_nat (m - 2)) + 2 <= inject_Z n).
    { change 2 with (inject_Z 2). rewrite <- inject_Z_plus, <- Zle_Qle. lia. }
    set (M := inject_Z (Z.of_nat (m - 2))) in *.
    set (N := inject_Z n) in *.
    assert (H1 : 0 <= M * x) by (apply Qmult_le_0_compat; lra).
    assert (H2 : 0 <= (N - (M + 2)) * c) by (apply Qmult_le_0_compat; lra).
    nra.
Qed.

Lemma xfade_offsets_increasing_13 :
  length (xfade_offsets 13 (num_clips 13) 3) = 2%nat /\
  StronglySorted Qlt (xfade_offsets 13 (num_clips 13) 3) /\
  List.last (xfade_offsets 13 (num_clips 13) 3) 0 + xfade_duration 13 (num_clips 13) <= 13.
Proof.
  apply (xfade_offsets_increasing 13 3).
  - discriminate.
  - lia.
  - vm_compute. discriminate.
Defined.

(** ** Scoring of search results *)

Lemma fold_boost (t : string) (delta : Q) (kws : list string) : forall init,
  fold_left (fun score kw => if contains kw t then score + delta else score)
            kws init
  == init + inject_Z (Z.of_nat (length (List.filter (fun kw => contains kw t) kws)))
            * delta.
Proof.
  induction kws as [|kw kws IH]; intros init; simpl.
  - ring.
  - rewrite IH. destruct (contains kw t); [|reflexivity].
    cbn [length]. rewrite Nat2Z.inj_succ, <- Z.add_1_r, inject_Z_plus. ring.
Qed.

Lemma fold_penalty (t : string) (delta : Q) (kws : list string) : forall init,
  fold_left (fun score kw => if contains kw t then score - delta else score)
            kws init
  == init - inject_Z (Z.of_nat (length (List.filter (fun kw => contains kw t) kws)))
            * delta.
Proof.
  induction kws as [|kw kws IH]; intros init; simpl.
  - ring.
  - rewrite IH. destruct (contains kw t); [|reflexivity].
    cbn [length]. rewrite Nat2Z.inj_succ, <- Z.add_1_r, inject_Z_plus. ring.
Qed.

(** The score before clamping: 0.5, plus 0.25 on an official channel, plus
    0.08 for each desirable keyword in the title, minus 0.25 for each
    undesirable one. *)
Lemma raw_score_hits (title channel : string) :
  raw_score title channel
  == 0.5
     + (if existsb (fun official => contains (lower official) (lower channel))
                   OFFICIAL_CHANNELS then 0.25 else 0)
     + inject_Z (Z.of_nat (hits GOOD_KEYWORDS title)) * 0.08
     - inject_Z (Z.of_nat (hits BAD_KEYWORDS title)) * 0.25.
Proof.
  unfold raw_score, hits. rewrite fold_penalty, fold_boost.
  destruct (existsb _ OFFICIAL_CHANNELS); ring.
Qed.

Lemma clamp_cases (s : Q) :
  (s < 0 /\ Qmax 0 (Qmin 1 s) == 0) \/
  (0 <= s <= 1 /\ Qmax 0 (Qmin 1 s) == s) \/
  (1 < s /\ Qmax 0 (Qmin 1 s) == 1).
Proof.
  destruct (Q.min_spec 1 s) as [[H1 E1]|[H1 E1]];
    destruct (Q.max_spec 0 (Qmin 1 s)) as [[H2 E2]|[H2 E2]];
    rewrite E2; rewrite E1 in *; lra.
Qed.

(** C6, as the specification states it, fails where the upper clamp is
    active: on an official channel a title with four desirable keywords
    scores 1.07 before clamping and 1 after; one undesirable keyword more
    brings it to 0.82, neither 0.25 less nor max(0, 1 - 0.25). *)
Lemma score_result_not_minus_quarter :
  tainted_title = clean_title +:+ " interview" /\
  hits GOOD_KEYWORDS tainted_title = hits GOOD_KEYWORDS clean_title /\
  hits BAD_KEYWORDS tainted_title = S (hits BAD_KEYWORDS clean_title) /\
  score_result clean_title "FORMULA 1" == 1 /\
  score_result tainted_title "FORMULA 1" == 0.82 /\
  ~ score_result tainted_title "FORMULA 1"
    == Qmax 0 (score_result clean_title "FORMULA 1" - 0.25).
Proof.
  split; [reflexivity|].
  split; [vm_compute; reflexivity|]. split; [vm_compute; reflexivity|].
  split; [vm_compute; reflexivity|]. split; [vm_compute; reflexivity|].
  vm_compute. discriminate.
Qed.

(** C6, amended. For any channel, a title with one more undesirable keyword
    and the same desirable keywords has an unclamped score exactly 0.25
    lower; its score is never higher; and when the unclamped score of the
    original title is at most 1 (the upper clamp is idle), its score is the
    original score minus 0.25, clamped at 0, which is strictly lower unless
    the original score is 0. *)
Theorem score_result_bad_keyword (channel title title' : string) :
  hits GOOD_KEYWORDS title' = hits GOOD_KEYWORDS title ->
  hits BAD_KEYWORDS title' = S (hits BAD_KEYWORDS title) ->
  raw_score title' channel == raw_score title channel - 0.25 /\
  score_result title' channel <= score_result title channel /\
  (raw_score title channel <= 1 ->
   score_result title' channel == Qmax 0 (score_result title channel - 0.25) /\
   (0 < score_result title channel ->
    score_result title' channel < score_result title channel)).
Proof.
  intros Hgood Hbad.
  assert (Hraw : raw_score title' channel == raw_score title channel - 0.25).
  { rewrite !raw_score_hits, Hgood, Hbad.
    rewrite Nat2Z.inj_succ, <- Z.add_1_r, inject_Z_plus. ring. }
  unfold score_result.
  destruct (clamp_cases (raw_score title channel)) as [[H E]|[[H E]|[H E]]];
    destruct (clamp_cases (raw_score title' channel)) as [[H' E']|[[H' E']|[H' E']]];
    rewrite E, E'; (split; [exact Hraw|]); (split; [lra|]); intros Hle;
    (split; [|intros Hpos; lra]);
    destruct (Q.max_spec 0 (raw_score title channel - 0.25)) as [[Hm Em]|[Hm Em]];
    destruct (Q.max_spec 0 (0 - 0.25)) as [[Hz Ez]|[Hz Ez]];
    destruct (Q.max_spec 0 (1 - 0.25)) as [[Ho Eo]|[Ho Eo]];
    try rewrite Em; try rewrite Ez; try rewrite Eo; lra.
Qed.

Lemma score_result_bad_keyword_plain :
  raw_score "race interview" "Some Fan" == raw_score "race" "Some Fan" - 0.25 /\
  score_result "race interview" "Some Fan" <= score_result "race" "Some Fan" /\
  (raw_score "race" "Some Fan" <= 1 ->
   score_result "race interview" "Some Fan"
   == Qmax 0 (score_result "race" "Some Fan" - 0.25) /\
   (0 < score_result "race" "Some Fan" ->
    score_result "race interview" "Some Fan" < score_result "race" "Some Fan")).
Proof.
  apply (score_result_bad_keyword "Some Fan" "race" "race interview");
    vm_compute; reflexivity.
Defined.

(** ** The image searches: failures and the rate limiter *)

Lemma append_urls_leading (items : list (option string)) : forall urls,
  snd (append_urls items urls) = urls ++ leading_urls items.
Proof.
  induction items as [|[url|] items IH]; intros urls; simpl.
  - now rewrite app_nil_r.
  - rewrite IH, <- app_assoc. reflexivity.
  - now rewrite app_nil_r.
Qed.

(** What a search that misses the cache and has a key does, step by step. *)
Lemma search_images_request (b : Backend) (query : string) (num_images : nat)
      (env : Env) (api_key : option string) (resp : Response) (latency : Q)
      (w : World) :
  IMAGE_CACHE w !! cache_key b query num_images = None ->
  get_api_key env (backend_name b) = Ok api_key ->
  truthy_opt api_key = true ->
  let w1 := rate_limit b w in
  let out := search_images b query num_images env resp latency w in
  fst out = Ok (match resp with
                | NetworkError | NotJson => []
                | Json items => leading_urls items
                end) /\
  now (snd out) = now w1 + latency /\
  LAST_API_CALL (snd out) = now w1 /\
  events (snd out) = Requested b (now w1) :: events w1.
Proof.
  intros Hmiss Hget Hkey. cbv zeta. unfold search_images.
  rewrite Hmiss, Hget, Hkey.
  cbn [negb]. destruct resp as [| |items]; cbn; try (repeat split; reflexivity).
  pose proof (append_urls_leading items []) as Hl.
  destruct (append_urls items []) as [[[]|e] urls]; cbn in *; subst urls;
    repeat split; reflexivity.
Qed.

(** A search that finds the query in the cache, cannot read the key or has
    no key leaves the state as it is. *)
Lemma search_images_idle (b : Backend) (query : string) (num_images : nat)
      (env : Env) (resp : Response) (latency : Q) (w : World) :
  (exists urls, IMAGE_CACHE w !! cache_key b query num_images = Some urls)
  \/ (forall api_key, get_api_key env (backend_name b) = Ok api_key ->
                      truthy_opt api_key = false) ->
  snd (search_images b query num_images env resp latency w) = w.
Proof.
  unfold search_images. intros [[urls ->]|Hkey]; [reflexivity|].
  destruct (IMAGE_CACHE w !! _); [reflexivity|].
  destruct (get_api_key env (backend_name b)) as [api_key|e]; [|reflexivity].
  now rewrite (Hkey api_key eq_refl).
Qed.

(** The key lookup ends in one of two ways that matter to the state. *)
Lemma key_cases (env : Env) (b : Backend) :
  (exists api_key, get_api_key env (backend_name b) = Ok api_key
                   /\ truthy_opt api_key = true)
  \/ (forall api_key, get_api_key env (backend_name b) = Ok api_key ->
                      truthy_opt api_key = false).
Proof.
  destruct (get_api_key env (backend_name b)) as [api_key|e].
  - destruct (truthy_opt api_key) eqn:Hk.
    + left. eauto.
    + right. intros ? [= <-]. exact Hk.
  - right. discriminate.
Qed.

Lemma events_rate_limit (b : Backend) (w : World) :
  latest_request (events (rate_limit b w)) = latest_request (events w).
Proof. unfold rate_limit. now destruct (rate_limit_wait w). Qed.

Lemma last_api_call_invariant (w : World) :
  Reachable w -> LAST_API_CALL w = latest_request (events w).
Proof.
  induction 1 as [t Ht|seconds w Hs Hw IH|b query n env resp latency w Hl Hw IH].
  - reflexivity.
  - exact IH.
  - destruct (IMAGE_CACHE w !! cache_key b query n) as [urls|] eqn:Hc.
    + rewrite search_images_idle by (left; eauto). exact IH.
    + destruct (key_cases env b) as [(api_key & Hget & Hk)|Hno].
      * destruct (search_images_request b query n env api_key resp latency w
                                        Hc Hget Hk)
          as (_ & _ & Hlast & Hev).
        rewrite Hlast, Hev. reflexivity.
      * rewrite search_images_idle by (right; exact Hno). exact IH.
Qed.

Lemma reachable_after_pexels : Reachable after_pexels.
Proof.
  unfold after_pexels, search_images_pexels.
  apply reach_search; [discriminate|]. apply reach_start. discriminate.
Qed.

(** C4, as the specification states it, fails: two reachable states with
    the same clock reading and the same (empty) history of Unsplash
    requests need not wait the same before an Unsplash request. After a
    Pexels request made 0.1 s earlier the Unsplash search sleeps; without
    it, it does not. *)
Lemma rate_limit_not_per_provider :
  ~ (forall w1 w2 : World,
       Reachable w1 -> Reachable w2 ->
       now w1 == now w2 ->
       last_call_timestamp Unsplash (events w1)
       = last_call_timestamp Unsplash (events w2) ->
       rate_limit_wait w1 = rate_limit_wait w2).
Proof.
  intros H.
  specialize (H after_pexels (tick 0.1 (start 100)) reachable_after_pexels).
  assert (Hr : Reachable (tick 0.1 (start 100))).
  { apply reach_tick; [discriminate|]. apply reach_start. discriminate. }
  specialize (H Hr).
  assert (Hnow : now after_pexels == now (tick 0.1 (start 100)))
    by (vm_compute; reflexivity).
  specialize (H Hnow eq_refl). vm_compute in H. discriminate.
Qed.

(** C4, amended. The minimum interval is enforced against one timestamp
    shared by all backends: in every state a run can reach,
    [_LAST_API_CALL] is the time of the most recent request to whichever
    backend; a search that issues a request first sleeps for
    [API_RATE_LIMIT_DELAY] minus the time since that request when this is
    positive, and not at all otherwise; and the request is then logged at
    the time the sleep ends. *)
Theorem rate_limit_shared_timestamp (w : World) :
  Reachable w ->
  LAST_API_CALL w = latest_request (events w) /\
  (rate_limit_wait w = None <->
   API_RATE_LIMIT_DELAY <= now w - latest_request (events w)) /\
  (forall seconds, rate_limit_wait w = Some seconds ->
     0 < seconds /\
     seconds == API_RATE_LIMIT_DELAY - (now w - latest_request (events w))) /\
  (forall b query num_images env api_key resp latency,
     IMAGE_CACHE w !! cache_key b query num_images = None ->
     get_api_key env (backend_name b) = Ok api_key ->
     truthy_opt api_key = true ->
     events (snd (search_images b query num_images env resp latency w))
     = match rate_limit_wait w with
       | Some seconds =>
           Requested b (now w + seconds) :: Slept b seconds :: events w
       | None => Requested b (now w) :: events w
       end).
Proof.
  intros Hw. pose proof (last_api_call_invariant w Hw) as Hinv.
  split; [exact Hinv|]. unfold rate_limit_wait. rewrite Hinv.
  set (elapsed := (now w - latest_request (events w))%Q).
  destruct (Qle_bool API_RATE_LIMIT_DELAY elapsed) eqn:E; cbn [negb].
  - apply Qle_bool_iff in E. split; [tauto|]. split; [discriminate|].
    intros b query n env api_key resp latency Hc Hget Hk.
    destruct (search_images_request b query n env api_key resp latency w
                                    Hc Hget Hk)
      as (_ & _ & _ & Hev).
    rewrite Hev. unfold rate_limit, rate_limit_wait. rewrite Hinv.
    fold elapsed. apply Qle_bool_iff in E. now rewrite E.
  - assert (Hlt : (elapsed < API_RATE_LIMIT_DELAY)%Q).
    { apply Qnot_le_lt. intros Hle. apply Qle_bool_iff in Hle. congruence. }
    split; [split; [discriminate|intros Hle; exfalso; lra]|]. split.
    + intros seconds [= <-]. split; [lra|reflexivity].
    + intros b query n env api_key resp latency Hc Hget Hk.
      destruct (search_images_request b query n env api_key resp latency w
                                      Hc Hget Hk)
        as (_ & _ & _ & Hev).
      rewrite Hev. unfold rate_limit, rate_limit_wait. rewrite Hinv.
      fold elapsed. rewrite E. reflexivity.
Qed.

Lemma rate_limit_shared_timestamp_after_pexels :
  LAST_API_CALL after_pexels = latest_request (events after_pexels) /\
  (rate_limit_wait after_pexels = None <->
   API_RATE_LIMIT_DELAY
   <= now after_pexels - latest_request (events after_pexels))%Q /\
  (forall seconds, rate_limit_wait after_pexels = Some seconds ->
     (0 < seconds)%Q /\
     (seconds == API_RATE_LIMIT_DELAY
                 - (now after_pexels - latest_request (events after_pexels)))%Q) /\
  (forall b query num_images env api_key resp latency,
     IMAGE_CACHE after_pexels !! cache_key b query num_images = None ->
     get_api_key env (backend_name b) = Ok api_key ->
     truthy_opt api_key = true ->
     events (snd (search_images b query num_images env resp latency after_pexels))
     = match rate_limit_wait after_pexels with
       | Some seconds =>
           Requested b (now after_pexels + seconds)%Q
             :: Slept b seconds :: events after_pexels
       | None => Requested b (now after_pexels) :: events after_pexels
       end).
Proof.
  apply (rate_limit_shared_timestamp after_pexels).
  unfold after_pexels, search_images_pexels.
  apply reach_search; [discriminate|]. apply reach_start. discriminate.
Defined.

Lemma contains_false (sub s : string) :
  contains sub s = false ->
  String.prefix sub s = false /\
  match s with
  | EmptyString => True
  | String _ s' => contains sub s' = false
  end.
Proof.
  destruct s as [|c s']; cbn [contains]; intros H;
    apply orb_false_iff in H; destruct H as [H1 H2]; auto.
Qed.

(** A text without the separator is one field. *)
Lemma split_from_no_sep (sep s : string) : forall skip cur,
  contains sep s = false -> length (split_from sep skip cur s) = 1%nat.
Proof.
  induction s as [|c s' IH]; intros skip cur H; [reflexivity|].
  destruct (contains_false _ _ H) as [Hp Hs]. cbn [split_from].
  destruct skip as [|skip']; [rewrite Hp|]; now apply IH.
Qed.

Lemma length_insert_by_score (v : Video) (l : list Video) :
  length (insert_by_score v l) = S (length l).
Proof.
  induction l as [|u l IH]; [reflexivity|]. cbn [insert_by_score].
  destruct (Qle_bool (score u) (score v)); cbn [length]; [reflexivity|].
  now rewrite IH.
Qed.

Lemma length_sort_by_score (l : list Video) :
  length (sort_by_score l) = length l.
Proof.
  induction l as [|v l IH]; [reflexivity|]. unfold sort_by_score in *.
  cbn [fold_right length]. now rewrite length_insert_by_score, IH.
Qed.

(** A line adds a video exactly when it is usable. *)
Lemma video_of_line_usable (line : string) :
  length (video_of_line line) = if usable line then 1%nat else 0%nat.
Proof.
  unfold video_of_line, usable. cbv zeta.
  destruct (contains "|||" line) eqn:Hc; cbn [negb].
  - destruct (split "|||" line) as [|t [|i [|c [|d rest]]]]; try reflexivity.
    cbn [length Nat.leb nth andb].
    now destruct (Qle_bool 0.2 (score_result t c)).
  - unfold split. rewrite (split_from_no_sep _ _ 0 EmptyString Hc). reflexivity.
Qed.

Lemma length_videos_of_lines (lines : list string) :
  length (flat_map video_of_line lines) = length (List.filter usable lines).
Proof.
  induction lines as [|line lines IH]; [reflexivity|].
  cbn [flat_map List.filter]. rewrite List.length_app, video_of_line_usable, IH.
  now destruct (usable line).
Qed.

Lemma filter_nil_iff (A : Type) (f : A -> bool) (l : list A) :
  List.filter f l = [] <-> List.Forall (fun a => f a = false) l.
Proof.
  induction l as [|a l IH]; cbn [List.filter].
  - split; [constructor|reflexivity].
  - destruct (f a) eqn:E.
    + split; [discriminate|]. intros H. inversion H; congruence.
    + rewrite IH. split; [now constructor|]. intros H. now inversion H.
Qed.

(** C9, as the specification states it, fails on both counts. When the
    second item of the response is malformed, reading it raises, and the
    Pexels search returns the one URL it had collected, not an empty list.
    And when the Pexels key file is there but cannot be opened, the
    exception of [get_api_key] reaches the caller of the search. *)
Lemma search_images_keeps_collected_urls :
  fst (append_urls [Some "https://images.pexels.com/photos/1/large2x.jpg"; None] [])
  = Raise KeyError /\
  fst (search_images_pexels "Ferrari F1 car" 4 with_keys
                            half_good_response 0.1 (start 100))
  = Ok ["https://images.pexels.com/photos/1/large2x.jpg"] /\
  fst (search_images_pexels "Ferrari F1 car" 4 with_keys
                            half_good_response 0.1 (start 100))
  <> Ok [] /\
  fst (search_images_pexels "Ferrari F1 car" 4 locked_key_file
                            half_good_response 0.1 (start 100))
  = Raise OSError.
Proof.
  split; [reflexivity|]. split; [vm_compute; reflexivity|].
  split; [vm_compute; discriminate|]. vm_compute. reflexivity.
Qed.

(** C9, amended. An image search whose query is in the cache returns the
    cached list and does nothing else. Otherwise it looks the key up: what
    reading the key file raises reaches the caller, with the state unchanged;
    and the search raises in no other case. Without a key (no key file and
    no environment variable, or an empty key) it returns an empty list and
    changes nothing, so it issues no request. With a key it issues exactly
    one request and returns an empty list on a network error and on a body
    that does not decode, and otherwise the URLs of the items that precede
    the first malformed one (all of them when none is malformed). The
    footage search passes on what starting the search tool raises; once the
    tool has run it returns a list with one video for each usable line of
    the output, which is empty exactly when no line is usable. *)
Theorem search_failures
        (b : Backend) (query : string) (num_images : nat)
        (env : Env) (resp : Response) (latency : Q) (w : World)
        (subprocess_run : list string -> Result string) (max_results : nat) :
  (forall cached,
     IMAGE_CACHE w !! cache_key b query num_images = Some cached ->
     search_images b query num_images env resp latency w = (Ok cached, w)) /\
  (IMAGE_CACHE w !! cache_key b query num_images = None ->
     (forall e,
        get_api_key env (backend_name b) = Raise e ->
        search_images b query num_images env resp latency w = (Raise e, w)) /\
     (creds_dir env !! backend_name b = None ->
      environ env !! (upper (backend_name b) +:+ "_API_KEY") = None ->
      search_images b query num_images env resp latency w = (Ok [], w)) /\
     (forall api_key,
        get_api_key env (backend_name b) = Ok api_key ->
        truthy_opt api_key = false ->
        search_images b query num_images env resp latency w = (Ok [], w)) /\
     (forall api_key,
        get_api_key env (backend_name b) = Ok api_key ->
        truthy_opt api_key = true ->
        fst (search_images b query num_images env resp latency w)
        = Ok (match resp with
              | NetworkError | NotJson => []
              | Json items => leading_urls items
              end) /\
        request_count (snd (search_images b query num_images env resp latency w))
        = S (request_count w))) /\
  (forall e,
     fst (search_images b query num_images env resp latency w) = Raise e ->
     IMAGE_CACHE w !! cache_key b query num_images = None /\
     get_api_key env (backend_name b) = Raise e) /\
  (forall e,
     subprocess_run (yt_dlp_cmd query max_results) = Raise e ->
     search_youtube_enhanced subprocess_run query max_results = Raise e) /\
  (forall stdout,
     subprocess_run (yt_dlp_cmd query max_results) = Ok stdout ->
     exists videos,
       search_youtube_enhanced subprocess_run query max_results = Ok videos /\
       length videos = length (List.filter usable (split LF (strip stdout))) /\
       (videos = [] <->
        List.Forall (fun line => usable line = false) (split LF (strip stdout)))).
Proof.
  split; [|split; [|split; [|split]]].
  - intros cached Hc. unfold search_images. now rewrite Hc.
  - intros Hc. split; [|split; [|split]].
    + intros e He. unfold search_images. now rewrite Hc, He.
    + intros Hfile Hvar. unfold search_images, get_api_key.
      now rewrite Hc, Hfile, Hvar.
    + intros api_key Hget Hk. unfold search_images. now rewrite Hc, Hget, Hk.
    + intros api_key Hget Hk.
      destruct (search_images_request b query num_images env api_key resp
                                      latency w Hc Hget Hk)
        as (Hres & _ & _ & Hev).
      split; [exact Hres|]. unfold request_count. rewrite Hev.
      cbn [request_times length]. f_equal. unfold rate_limit.
      now destruct (rate_limit_wait w).
  - intros e. destruct (IMAGE_CACHE w !! cache_key b query num_images)
      as [cached|] eqn:Hc.
    + unfold search_images. rewrite Hc. discriminate.
    + destruct (get_api_key env (backend_name b)) as [api_key|e'] eqn:Hget.
      * destruct (truthy_opt api_key) eqn:Hk.
        -- destruct (search_images_request b query num_images env api_key resp
                                           latency w Hc Hget Hk) as (Hres & _).
           rewrite Hres. discriminate.
        -- unfold search_images. rewrite Hc, Hget, Hk. discriminate.
      * unfold search_images. rewrite Hc, Hget. cbn [fst].
        intros [= ->]. now split.
  - intros e Hrun. unfold search_youtube_enhanced. now rewrite Hrun.
  - intros stdout Hrun. unfold search_youtube_enhanced. rewrite Hrun.
    set (lines := split LF (strip stdout)).
    assert (Hlen : length (sort_by_score (flat_map video_of_line lines))
                   = length (List.filter usable lines))
      by (now rewrite length_sort_by_score, length_videos_of_lines).
    eexists. split; [reflexivity|]. split; [exact Hlen|].
    rewrite <- filter_nil_iff.
    destruct (sort_by_score (flat_map video_of_line lines));
      destruct (List.filter usable lines); cbn in Hlen; try discriminate;
      split; congruence.
Qed.

Lemma search_failures_no_credentials :
  search_images Unsplash "Ferrari F1 car" 4 no_credentials NetworkError 0.1 (start 100)
  = (Ok [], start 100) /\
  fst (search_images Pexels "Ferrari F1 car" 4 with_keys NetworkError 0.1 (start 100))
  = Ok [] /\
  search_images Pexels "Ferrari F1 car" 4 locked_key_file NetworkError 0.1 (start 100)
  = (Raise OSError, start 100) /\
  search_youtube_enhanced no_output "monaco" 8 = Ok [].
Proof.
  split; [|split; [|split]].
  - destruct (search_failures Unsplash "Ferrari F1 car" 4 no_credentials
                              NetworkError 0.1 (start 100) no_output 8)
      as (_ & Hmiss & _).
    destruct (Hmiss eq_refl) as (_ & Hnone & _). apply Hnone; reflexivity.
  - destruct (search_failures Pexels "Ferrari F1 car" 4 with_keys NetworkError
                              0.1 (start 100) no_output 8)
      as (_ & Hmiss & _).
    destruct (Hmiss eq_refl) as (_ & _ & _ & Hkey).
    destruct (Hkey (Some "key") eq_refl eq_refl) as [Hres _]. exact Hres.
  - destruct (search_failures Pexels "Ferrari F1 car" 4 locked_key_file
                              NetworkError 0.1 (start 100) no_output 8)
      as (_ & Hmiss & _).
    destruct (Hmiss eq_refl) as (Hraise & _). apply Hraise. reflexivity.
  - destruct (search_failures Pexels "monaco" 8 no_credentials NetworkError 0.1
                              (start 100) no_output 8) as (_ & _ & _ & _ & Hyt).
    destruct (Hyt EmptyString eq_refl) as (videos & Hres & _ & Hempty).
    rewrite Hres. f_equal. apply Hempty.
    change (split LF (strip EmptyString)) with [EmptyString].
    constructor; [vm_compute; reflexivity|constructor].
Defined.

(** * Further properties *)

Local Close Scope Q_scope.

(** ** Routing: what the decision can and cannot be *)

(** Without the generated-scene flag the decision never involves the
    generated scene: neither as primary nor as fallback, and it carries no
    scene prompt. *)
Theorem route_visual_flag_off (segment : gmap string string) :
  primary_type (route_visual segment false) <> VEO3_VIDEO /\
  fallback_type (route_visual segment false) <> VEO3_VIDEO /\
  veo3_prompt (route_visual segment false) = None.
Proof.
  unfold route_visual; cbv zeta.
  destruct (detect_quote _) as [speaker quote].
  destruct (truthy_opt speaker && truthy_opt quote);
    [repeat split; discriminate|].
  cbn [andb truthy_opt].
  repeat match goal with
         | |- context [if ?b then _ else _] => destruct b
         end;
    cbn [primary_type fallback_type veo3_prompt truthy_opt];
    repeat split; discriminate.
Qed.

(** The decision never names the same strategy twice, and its confidence
    lies between 0.6 and 0.95. *)
Theorem route_visual_fallback_differs (segment : gmap string string) (use_veo3 : bool) :
  primary_type (route_visual segment use_veo3)
  <> fallback_type (route_visual segment use_veo3) /\
  (0.6 <= confidence (route_visual segment use_veo3) <= 0.95)%Q.
Proof.
  unfold route_visual; cbv zeta.
  destruct (detect_quote _) as [speaker quote].
  repeat match goal with
         | |- context [if ?b then _ else _] => destruct b
         end;
    cbn [primary_type fallback_type confidence];
    (split; [discriminate|split; discriminate]).
Qed.

Lemma length_or_else (xs ys : list string) (n : nat) :
  length xs <= n -> length ys <= n -> length (or_else xs ys) <= n.
Proof. destruct xs; simpl; auto. Qed.

(** The decision carries at least one and at most six search queries: two
    drivers, two teams, one fuel partner and the footage query at most. *)
Theorem route_visual_queries_bounded (segment : gmap string string) (use_veo3 : bool) :
  1 <= length (search_queries (route_visual segment use_veo3)) <= 6.
Proof.
  unfold route_visual; cbv zeta.
  destruct (detect_quote _) as [speaker quote].
  destruct (truthy_opt speaker && truthy_opt quote); [cbn; lia|].
  match goal with
  | |- context [or_else ?qs _] => remember qs as q eqn:Eq
  end.
  assert (Hq : length q <= 6).
  { subst q.
    assert (Hbase : forall ds ts ps : list string,
               length (map (fun d => d +:+ " F1 2024") (firstn 2 ds)
                       ++ map (fun t => t +:+ " F1 car") (firstn 2 ts)
                       ++ map (fun p => p +:+ " F1") (firstn 1 ps)) <= 5).
    { intros ds ts ps. rewrite !List.length_app, !List.length_map.
      pose proof (firstn_le_length 2 ds). pose proof (firstn_le_length 2 ts).
      pose proof (firstn_le_length 1 ps).
      pose proof (length_firstn 2 ds). pose proof (length_firstn 2 ts).
      pose proof (length_firstn 1 ps). lia. }
    match goal with
    | |- context [if ?b then _ else _] => destruct b
    end; [rewrite List.length_app; cbn [length]|];
      match goal with
      | |- context [map _ (firstn 2 ?ds) ++ map _ (firstn 2 ?ts) ++ map _ (firstn 1 ?ps)] =>
          pose proof (Hbase ds ts ps)
      end; lia. }
  clear Eq.
  repeat match goal with
         | |- context [if ?b then _ else _] => destruct b
         end;
    cbn [search_queries];
    (split;
     [destruct q; cbn; lia
     |apply length_or_else; [exact Hq|cbn; lia]]).
Qed.

Ltac route_split :=
  unfold route_visual; cbv zeta;
  destruct (detect_quote _) as [speaker quote] eqn:?;
  repeat match goal with
         | |- context [if ?b then _ else _] => destruct b eqn:?
         end;
  cbn [primary_type fallback_type speaker_name quote_text veo3_prompt].

Ltac bool_hyps :=
  repeat match goal with
         | H : (_ && _) = true |- _ => apply andb_true_iff in H as [? ?]
         | H : negb _ = true |- _ => apply negb_true_iff in H
         end.

(** The payload a strategy needs is always there: a quotation card comes
    with the speaker and the quote that were detected, and a generated
    scene, as primary or as fallback, comes with a scene prompt and only
    when the flag allows it. The guards of [create_segment_video] on these
    fields therefore never turn a routed strategy down. *)
Theorem route_visual_payload (segment : gmap string string) (use_veo3 : bool) :
  (primary_type (route_visual segment use_veo3) = QUOTE_OVERLAY ->
   truthy_opt (speaker_name (route_visual segment use_veo3)) = true /\
   truthy_opt (quote_text (route_visual segment use_veo3)) = true /\
   detect_quote (get segment "text" EmptyString)
   = (speaker_name (route_visual segment use_veo3),
      quote_text (route_visual segment use_veo3))) /\
  (primary_type (route_visual segment use_veo3) = VEO3_VIDEO \/
   fallback_type (route_visual segment use_veo3) = VEO3_VIDEO ->
   use_veo3 = true /\
   truthy_opt (veo3_prompt (route_visual segment use_veo3)) = true).
Proof.
  route_split; (split; [intros Hp|intros [Hp|Hp]]); try discriminate Hp;
    bool_hyps; subst; auto.
Qed.

Lemma nonempty_entity_names (e : Entities) :
  (match drivers e with [] => false | _ :: _ => true end
   || match teams e with [] => false | _ :: _ => true end
   || match fuel_partners e with [] => false | _ :: _ => true end) = true
  <-> entity_names e <> [].
Proof.
  unfold entity_names.
  destruct (drivers e), (teams e), (fuel_partners e); cbn;
    split; intros H; try reflexivity; try discriminate; congruence.
Qed.

Lemma route_visual_conditions (segment : gmap string string) (use_veo3 : bool) :
  let e := detect_f1_entities (combined_text segment) in
  let text_lower := lower (combined_text segment) in
  (primary_type (route_visual segment use_veo3) = YOUTUBE_CLIP ->
   any_in ACTION_KEYWORDS text_lower = true /\ entity_names e <> []) /\
  (primary_type (route_visual segment use_veo3) = TALKING_HEAD ->
   any_in CONCEPT_KEYWORDS text_lower = true) /\
  (primary_type (route_visual segment use_veo3) = VEO3_VIDEO ->
   any_in VEO3_KEYWORDS text_lower = true /\ entity_names e = []).
Proof.
  cbv zeta. unfold combined_text.
  route_split; (split; [intros Hp|split; intros Hp]); try discriminate Hp;
    bool_hyps; auto.
  all: try (split; [assumption|]).
  all: try (apply nonempty_entity_names; assumption).
  all: match goal with
       | H : (_ || _) = false |- _ =>
           destruct (entity_names _) eqn:En; [reflexivity|];
           assert (Hne : entity_names
                           (detect_f1_entities
                              (get segment "text" EmptyString +:+ " "
                               +:+ get segment "context" EmptyString +:+ " "
                               +:+ get segment "footage_query" EmptyString))
                         <> []) by (rewrite En; discriminate);
           apply nonempty_entity_names in Hne; congruence
       end.
Qed.

(** Footage is the primary strategy only for a text with an action keyword
    and a known name in it; the presenter only for a text with a concept
    keyword; the generated scene only for a text with a scene keyword and
    no known name. *)
Theorem route_visual_needs (segment : gmap string string) (use_veo3 : bool) :
  let e := detect_f1_entities (combined_text segment) in
  let text_lower := lower (combined_text segment) in
  (primary_type (route_visual segment use_veo3) = YOUTUBE_CLIP ->
   any_in ACTION_KEYWORDS text_lower = true /\ entity_names e <> []) /\
  (primary_type (route_visual segment use_veo3) = TALKING_HEAD ->
   any_in CONCEPT_KEYWORDS text_lower = true) /\
  (primary_type (route_visual segment use_veo3) = VEO3_VIDEO ->
   any_in VEO3_KEYWORDS text_lower = true /\ entity_names e = []).
Proof. exact (route_visual_conditions segment use_veo3). Qed.

Lemma names_in_hit (d : list (string * string)) (key name t : string) :
  In (key, name) d -> contains key t = true -> In name (names_in d t).
Proof.
  intros Hin Hc. unfold names_in. apply in_map_iff. exists (key, name).
  split; [reflexivity|]. apply filter_In. now split.
Qed.

(** Names are looked up as substrings of the lowercased text, so a text
    that merely contains the letters of a key (such as [rb], the key of a
    team, inside [carbon] or [turbo]) counts as naming it, and the generated
    scene is then never the primary strategy. *)
Theorem route_visual_key_blocks_scene
        (segment : gmap string string) (use_veo3 : bool) (key name : string) :
  In (key, name) (F1_DRIVERS ++ F1_TEAMS ++ FUEL_PARTNERS) ->
  contains key (lower (combined_text segment)) = true ->
  In name (entity_names (detect_f1_entities (combined_text segment))) /\
  primary_type (route_visual segment use_veo3) <> VEO3_VIDEO.
Proof.
  intros Hin Hc.
  assert (Hname : In name (entity_names (detect_f1_entities (combined_text segment)))).
  { unfold entity_names, detect_f1_entities.
    cbn [drivers teams fuel_partners].
    apply in_app_iff in Hin as [Hin|Hin];
      [|apply in_app_iff in Hin as [Hin|Hin]];
      rewrite !in_app_iff; eauto using names_in_hit. }
  split; [exact Hname|]. intros Hp.
  apply (route_visual_conditions segment use_veo3) in Hp as [_ Hnone].
  rewrite Hnone in Hname. destruct Hname.
Qed.

Lemma route_visual_key_blocks_scene_carbon :
  In "RB F1 Team" (entity_names (detect_f1_entities (combined_text carbon_segment))) /\
  primary_type (route_visual carbon_segment true) <> VEO3_VIDEO.
Proof.
  apply (route_visual_key_blocks_scene carbon_segment true "rb" "RB F1 Team").
  - vm_compute. tauto.
  - vm_compute. reflexivity.
Defined.

(** ** The image searches: cache and request spacing *)

Local Open Scope Q_scope.

Lemma append_urls_ok (items : list (option string)) : forall urls,
  fst (append_urls items urls)
  = if well_formed items then Ok tt else Raise KeyError.
Proof.
  induction items as [|[url|] items IH]; intros urls; simpl; auto.
Qed.

Lemma search_images_json (b : Backend) (query : string) (num_images : nat)
      (env : Env) (api_key : option string) (items : list (option string))
      (latency : Q) (w : World) :
  IMAGE_CACHE w !! cache_key b query num_images = None ->
  get_api_key env (backend_name b) = Ok api_key ->
  truthy_opt api_key = true ->
  let w1 := rate_limit b w in
  search_images b query num_images env (Json items) latency w
  = (Ok (leading_urls items),
     {| now := now w1 + latency; LAST_API_CALL := now w1;
        IMAGE_CACHE := if well_formed items
                       then <[cache_key b query num_images := leading_urls items]>
                              (IMAGE_CACHE w1)
                       else IMAGE_CACHE w1;
        events := Requested b (now w1) :: events w1 |}).
Proof.
  intros Hmiss Hget Hkey. cbv zeta. unfold search_images.
  rewrite Hmiss, Hget, Hkey.
  cbn [negb urlopen_json].
  pose proof (append_urls_ok items []) as Hok.
  pose proof (append_urls_leading items []) as Hl.
  destruct (append_urls items []) as [r urls]. cbn [fst snd] in Hok, Hl.
  cbn [app] in Hl. subst r urls.
  destruct (well_formed items); reflexivity.
Qed.

Lemma cache_rate_limit (b : Backend) (w : World) :
  IMAGE_CACHE (rate_limit b w) = IMAGE_CACHE w.
Proof. unfold rate_limit. now destruct (rate_limit_wait w). Qed.

(** A search whose request is answered by a well-formed list stores it: the
    same search made again, whatever the credentials and the network are by
    then (the key file may even have become unreadable), returns the same
    list and changes nothing, so it issues no request and does not sleep. A
    search that failed, or met a malformed item, stores nothing. *)
Theorem search_images_cache (b : Backend) (query : string) (num_images : nat)
        (env : Env) (api_key : option string) (resp : Response) (latency : Q)
        (w : World) :
  IMAGE_CACHE w !! cache_key b query num_images = None ->
  get_api_key env (backend_name b) = Ok api_key ->
  truthy_opt api_key = true ->
  let out := search_images b query num_images env resp latency w in
  match resp with
  | Json items =>
      if well_formed items
      then forall env' resp' latency',
          search_images b query num_images env' resp' latency' (snd out) = out
      else IMAGE_CACHE (snd out) = IMAGE_CACHE w
  | _ => IMAGE_CACHE (snd out) = IMAGE_CACHE w
  end.
Proof.
  intros Hmiss Hget Hkey. cbv zeta. destruct resp as [| |items].
  - unfold search_images. rewrite Hmiss, Hget, Hkey. cbn. apply cache_rate_limit.
  - unfold search_images. rewrite Hmiss, Hget, Hkey. cbn. apply cache_rate_limit.
  - rewrite (search_images_json b query num_images env api_key items latency w
                                Hmiss Hget Hkey).
    cbv zeta. destruct (well_formed items); cbn [snd IMAGE_CACHE];
      [|apply cache_rate_limit].
    intros env' resp' latency'. unfold search_images.
    cbn [IMAGE_CACHE]. now rewrite lookup_insert_eq.
Qed.

Lemma search_images_cache_ferrari :
  search_images Pexels "Ferrari F1 car" 4 locked_key_file NetworkError 0.1
    (snd (search_images Pexels "Ferrari F1 car" 4 with_keys
            (Json [Some "https://images.pexels.com/photos/1/large2x.jpg"])
            0.1 (start 100)))
  = search_images Pexels "Ferrari F1 car" 4 with_keys
      (Json [Some "https://images.pexels.com/photos/1/large2x.jpg"])
      0.1 (start 100).
Proof.
  apply (search_images_cache Pexels "Ferrari F1 car" 4 with_keys (Some "key")
           (Json [Some "https://images.pexels.com/photos/1/large2x.jpg"])
           0.1 (start 100)); reflexivity.
Defined.

Lemma latest_request_hd (evs : list Event) :
  latest_request evs = hd 0 (request_times evs).
Proof. induction evs as [|[b s|b t] evs IH]; simpl; auto. Qed.

Lemma rate_limit_cases (b : Backend) (w : World) :
  (rate_limit b w = w /\
   API_RATE_LIMIT_DELAY <= now w - LAST_API_CALL w) \/
  (exists seconds,
      rate_limit b w = sleep b seconds w /\
      seconds == API_RATE_LIMIT_DELAY - (now w - LAST_API_CALL w) /\
      0 < seconds).
Proof.
  unfold rate_limit, rate_limit_wait.
  destruct (Qle_bool API_RATE_LIMIT_DELAY (now w - LAST_API_CALL w)) eqn:E;
    cbn [negb].
  - left. split; [reflexivity|]. now apply Qle_bool_iff.
  - right. eexists. split; [reflexivity|]. split; [reflexivity|].
    assert (now w - LAST_API_CALL w < API_RATE_LIMIT_DELAY); [|lra].
    apply Qnot_le_lt. intros H. apply Qle_bool_iff in H. congruence.
Qed.

Lemma spacing_invariant (w : World) :
  Reachable w ->
  LAST_API_CALL w = hd 0 (request_times (events w)) /\
  LAST_API_CALL w <= now w /\
  spaced (request_times (events w)) /\
  List.Forall (fun seconds => 0 < seconds <= API_RATE_LIMIT_DELAY)
              (sleeps (events w)).
Proof.
  induction 1 as [t Ht|seconds w Hs Hw IH|b query n env resp latency w Hl Hw IH].
  - cbn. repeat split; [exact Ht|constructor].
  - destruct IH as (I1 & I2 & I3 & I4). cbn. repeat split; try assumption. lra.
  - destruct (IMAGE_CACHE w !! cache_key b query n) as [urls|] eqn:Hc;
      [rewrite search_images_idle by (left; eauto); exact IH|].
    destruct (key_cases env b) as [(api_key & Hget & Hk)|Hno];
      [|rewrite search_images_idle by (right; exact Hno); exact IH].
    destruct IH as (I1 & I2 & I3 & I4).
    destruct (search_images_request b query n env api_key resp latency w
                                    Hc Hget Hk)
      as (_ & Hnow & Hlast & Hev).
    rewrite Hnow, Hlast, Hev. clear Hnow Hlast Hev.
    destruct (rate_limit_cases b w) as [[-> Hwait]|(s & -> & Hs & Hpos)].
    + cbn [request_times sleeps hd]. repeat split; try assumption; [lra|].
      destruct (request_times (events w)) as [|earlier rest] eqn:Ert;
        [exact I|].
      cbn [spaced]. split; [|exact I3]. cbn [hd] in I1. rewrite <- I1. lra.
    + cbn [sleep now events request_times sleeps hd].
      repeat split; [lra| |constructor; [split; lra|exact I4]].
      destruct (request_times (events w)) as [|earlier rest] eqn:Ert;
        [exact I|].
      cbn [spaced]. split; [|exact I3]. cbn [hd] in I1. rewrite <- I1. lra.
Qed.

(** The rate limiter at work: in every state a run can reach, successive
    network requests, to whichever backends, lie at least
    [API_RATE_LIMIT_DELAY] apart, and no sleep is longer than
    [API_RATE_LIMIT_DELAY]. *)
Theorem requests_spaced (w : World) :
  Reachable w ->
  spaced (request_times (events w)) /\
  List.Forall (fun seconds => 0 < seconds <= API_RATE_LIMIT_DELAY)
              (sleeps (events w)).
Proof.
  intros Hw. destruct (spacing_invariant w Hw) as (_ & _ & H3 & H4). now split.
Qed.

Lemma requests_spaced_after_unsplash :
  spaced (request_times (events after_unsplash)) /\
  List.Forall (fun seconds => 0 < seconds <= API_RATE_LIMIT_DELAY)
              (sleeps (events after_unsplash)).
Proof.
  apply (requests_spaced after_unsplash).
  unfold after_unsplash, after_pexels, search_images_unsplash, search_images_pexels.
  apply reach_search; [discriminate|].
  apply reach_search; [discriminate|]. apply reach_start. discriminate.
Defined.

(** ** Clip planning: bounds *)

Lemma num_clips_cases (d : Q) :
  let k := Qfloor (d / MAX_CLIP_DURATION) in
  (num_clips d = 2%Z /\ (k <= 1)%Z) \/ (num_clips d = (k + 1)%Z /\ (2 <= k)%Z).
Proof.
  cbv zeta. rewrite num_clips_floor.
  destruct (Z_le_gt_dec (Qfloor (d / MAX_CLIP_DURATION)) 1); [left|right]; lia.
Qed.

Lemma floor_bounds_max (d : Q) :
  inject_Z (Qfloor (d / MAX_CLIP_DURATION)) * 5 <= d /\
  d < (inject_Z (Qfloor (d / MAX_CLIP_DURATION)) + 1) * 5.
Proof.
  pose proof (Qfloor_le (d / MAX_CLIP_DURATION)) as Hlo.
  pose proof (Qlt_floor (d / MAX_CLIP_DURATION)) as Hhi.
  rewrite inject_Z_plus in Hhi.
  assert (E : d == d / MAX_CLIP_DURATION * 5) by (unfold MAX_CLIP_DURATION; field).
  set (x := d / MAX_CLIP_DURATION) in *.
  change (inject_Z 1) with 1 in Hhi. lra.
Qed.

Lemma clip_times_count (d : Q) :
  clip_duration d (num_clips d) * inject_Z (num_clips d) == d /\
  2 <= inject_Z (num_clips d).
Proof.
  split; [apply clip_duration_mult, num_clips_ge_2|].
  change 2 with (inject_Z 2). rewrite <- Zle_Qle. apply num_clips_ge_2.
Qed.

Lemma count_bounds (d : Q) :
  0 <= d ->
  d < inject_Z (num_clips d) * 5 /\
  (6 <= d -> inject_Z (num_clips d) * 3 <= d) /\
  (4 <= d -> inject_Z (num_clips d) * 2 <= d).
Proof.
  intros Hd. destruct (floor_bounds_max d) as [Hlo Hhi].
  destruct (num_clips_cases d) as [[-> Hk]|[-> Hk]].
  - assert (inject_Z (Qfloor (d / MAX_CLIP_DURATION)) <= 1)
      by (change 1 with (inject_Z 1); now rewrite <- Zle_Qle).
    change (inject_Z 2) with 2. repeat split; intros; lra.
  - assert (2 <= inject_Z (Qfloor (d / MAX_CLIP_DURATION)))
      by (change 2 with (inject_Z 2); now rewrite <- Zle_Qle).
    rewrite inject_Z_plus. change (inject_Z 1) with 1.
    repeat split; intros; lra.
Qed.

(** Shots stay within the intended 3 to 5 seconds: for a target duration
    [d >= 0] every planned shot is shorter than [MAX_CLIP_DURATION], and
    from [d = 6] seconds on it is no shorter than [MIN_CLIP_DURATION]. *)
Theorem clip_duration_bounds (d : Q) :
  0 <= d ->
  clip_duration d (num_clips d) < MAX_CLIP_DURATION /\
  (6 <= d -> MIN_CLIP_DURATION <= clip_duration d (num_clips d)).
Proof.
  intros Hd. destruct (clip_times_count d) as [Hmul HN].
  destruct (count_bounds d Hd) as (H5 & H3 & _).
  set (c := clip_duration d (num_clips d)) in *.
  set (N := inject_Z (num_clips d)) in *.
  unfold MAX_CLIP_DURATION, MIN_CLIP_DURATION. split.
  - destruct (Qlt_le_dec c 5.0) as [|Hge]; [assumption|exfalso].
    assert (0 <= (c - 5) * N) by (apply Qmult_le_0_compat; lra). lra.
  - intros H6. specialize (H3 H6).
    destruct (Qlt_le_dec c 3.0) as [Hlt|]; [exfalso|assumption].
    assert (0 <= (3 - c) * N) by (apply Qmult_le_0_compat; lra).
    assert (0 < (3 - c) * N) by (apply Qmult_lt_0_compat; lra). lra.
Qed.

Lemma clip_duration_bounds_13 :
  clip_duration 13 (num_clips 13) < MAX_CLIP_DURATION /\
  (6 <= 13 -> MIN_CLIP_DURATION <= clip_duration 13 (num_clips 13)).
Proof. apply (clip_duration_bounds 13). discriminate. Defined.

(** The crossfade never takes more than a quarter of a shot nor more than
    [CROSSFADE_DURATION], and from a target duration of 4 seconds on it is
    exactly [CROSSFADE_DURATION]. *)
Theorem xfade_duration_bounds (d : Q) :
  0 <= d ->
  0 <= xfade_duration d (num_clips d) <= CROSSFADE_DURATION /\
  4 * xfade_duration d (num_clips d) <= clip_duration d (num_clips d) /\
  (4 <= d -> xfade_duration d (num_clips d) == CROSSFADE_DURATION).
Proof.
  intros Hd. destruct (clip_times_count d) as [Hmul HN].
  destruct (count_bounds d Hd) as (_ & _ & H2).
  unfold xfade_duration.
  set (c := clip_duration d (num_clips d)) in *.
  set (N := inject_Z (num_clips d)) in *.
  assert (Hc : 0 <= c).
  { destruct (Qlt_le_dec c 0) as [Hneg|]; [exfalso|assumption].
    assert (0 <= (0 - c) * (N - 2)) by (apply Qmult_le_0_compat; lra). lra. }
  assert (E : c == c / 4 * 4) by field.
  set (q := c / 4) in *. unfold CROSSFADE_DURATION.
  pose proof (Q.le_min_l 0.5 q). pose proof (Q.le_min_r 0.5 q).
  assert (0 <= Qmin 0.5 q) by (apply Q.min_glb; lra).
  repeat split; try lra.
  intros H4. specialize (H2 H4). apply Q.min_l.
  destruct (Qlt_le_dec c 2) as [Hlt|]; [exfalso|lra].
  assert (0 < (2 - c) * N) by (apply Qmult_lt_0_compat; lra). lra.
Qed.

Lemma xfade_duration_bounds_13 :
  0 <= xfade_duration 13 (num_clips 13) <= CROSSFADE_DURATION /\
  4 * xfade_duration 13 (num_clips 13) <= clip_duration 13 (num_clips 13) /\
  (4 <= 13 -> xfade_duration 13 (num_clips 13) == CROSSFADE_DURATION).
Proof. apply (xfade_duration_bounds 13). discriminate. Defined.

(** When fewer clips are produced than planned, none of them is the last
    planned one, so each lasts [d / n] and nothing makes up the difference:
    [m < n] produced clips add up to [m * d / n], short of a positive
    target [d]. *)
Theorem produced_durations_short (d : Q) (n m : Z) :
  (2 <= n)%Z -> (0 <= m < n)%Z ->
  Qsum (produced_durations d n m) == inject_Z m * clip_duration d n /\
  (0 < d -> Qsum (produced_durations d n m) < d).
Proof.
  intros Hn Hm.
  assert (Hsum : Qsum (produced_durations d n m) == inject_Z m * clip_duration d n).
  { unfold produced_durations.
    rewrite (Qsum_const _ _ (clip_duration d n)).
    - rewrite length_range, Z2Nat.id by lia. reflexivity.
    - intros i Hi. apply in_range in Hi. unfold this_duration.
      replace (i <? n - 1)%Z with true by (symmetry; apply Z.ltb_lt; lia).
      reflexivity. }
  split; [exact Hsum|]. intros Hd. rewrite Hsum.
  pose proof (clip_duration_mult d n Hn) as Hmul.
  assert (HM : inject_Z m + 1 <= inject_Z n).
  { change 1 with (inject_Z 1). rewrite <- inject_Z_plus, <- Zle_Qle. lia. }
  assert (HN : 2 <= inject_Z n)
    by (change 2 with (inject_Z 2); rewrite <- Zle_Qle; lia).
  set (c := clip_duration d n) in *.
  assert (Hc : 0 < c).
  { destruct (Qlt_le_dec 0 c) as [|Hle]; [assumption|exfalso].
    assert (0 <= (0 - c) * inject_Z n) by (apply Qmult_le_0_compat; lra). lra. }
  assert (0 <= (inject_Z n - inject_Z m - 1) * c)
    by (apply Qmult_le_0_compat; lra).
  lra.
Qed.

Lemma produced_durations_short_13 :
  Qsum (produced_durations 13 3 2) == inject_Z 2 * clip_duration 13 3 /\
  (0 < 13 -> Qsum (produced_durations 13 3 2) < 13).
Proof. apply (produced_durations_short 13 3 2); lia. Defined.

(** The pan and zoom effect of a clip is always defined (the index never
    leaves the table), two successive indices never give the same effect,
    and the effects repeat with period four. *)
Theorem ken_burns_effect_cycle (effect_idx : nat) :
  exists effect,
    ken_burns_effect effect_idx = Some effect /\
    ken_burns_effect (S effect_idx) <> Some effect /\
    ken_burns_effect (effect_idx + 4) = Some effect.
Proof.
  unfold ken_burns_effect. change (length KEN_BURNS_EFFECTS) with 4%nat.
  assert (H4 : ((effect_idx + 4) mod 4 = effect_idx mod 4)%nat).
  { replace (effect_idx + 4)%nat with (effect_idx + 1 * 4)%nat by lia.
    apply Nat.Div0.mod_add. }
  assert (H1 : (S effect_idx mod 4 = (effect_idx mod 4 + 1) mod 4)%nat).
  { rewrite Nat.Div0.add_mod_idemp_l. f_equal. lia. }
  rewrite H4, H1.
  pose proof (Nat.mod_upper_bound effect_idx 4) as Hlt.
  destruct (effect_idx mod 4)%nat as [|[|[|[|k]]]]; [| | | |lia];
    eexists; (split; [reflexivity|split; [discriminate|reflexivity]]).
Qed.

(** ** Scores and the ranking of footage *)

Lemma raw_score_official (title channel : string) :
  raw_score title channel
  == 0.5 + (if official channel then 0.25 else 0)
     + inject_Z (Z.of_nat (hits GOOD_KEYWORDS title)) * 0.08
     - inject_Z (Z.of_nat (hits BAD_KEYWORDS title)) * 0.25.
Proof. apply raw_score_hits. Qed.

Lemma hits_nonneg (kws : list string) (title : string) :
  0 <= inject_Z (Z.of_nat (hits kws title)).
Proof. change 0 with (inject_Z 0). rewrite <- Zle_Qle. lia. Qed.

Lemma score_result_range_bounds (title channel : string) :
  0 <= score_result title channel <= 1.
Proof.
  unfold score_result.
  destruct (clamp_cases (raw_score title channel)) as [[H E]|[[H E]|[H E]]];
    rewrite E; lra.
Qed.

(** A score lies between 0 and 1, and a title without any undesirable
    keyword scores at least 0.5, on whatever channel. *)
Theorem score_result_range (title channel : string) :
  0 <= score_result title channel <= 1 /\
  (hits BAD_KEYWORDS title = 0%nat -> 0.5 <= score_result title channel).
Proof.
  pose proof (raw_score_official title channel) as Hraw.
  pose proof (hits_nonneg GOOD_KEYWORDS title) as Hg.
  unfold score_result.
  destruct (clamp_cases (raw_score title channel)) as [[H E]|[[H E]|[H E]]];
    rewrite E; (split; [lra|]); intros Hb; rewrite Hb in Hraw;
    change (inject_Z (Z.of_nat 0)) with 0 in Hraw;
    destruct (official channel); lra.
Qed.

(** A search result is discarded (its score is below 0.2) exactly when 25
    times the number of undesirable keywords in its title exceeds 30, plus 25
    on an official channel, plus 8 times the number of desirable keywords. *)
Theorem score_result_discard (title channel : string) :
  score_result title channel < 0.2 <->
  (30 + (if official channel then 25 else 0) + 8 * hits GOOD_KEYWORDS title
   < 25 * hits BAD_KEYWORDS title)%nat.
Proof.
  pose proof (raw_score_official title channel) as Hraw.
  set (g := hits GOOD_KEYWORDS title) in *.
  set (b := hits BAD_KEYWORDS title) in *.
  assert (Hnat : (30 + (if official channel then 25 else 0) + 8 * g < 25 * b)%nat
                 <-> 0.3 + (if official channel then 0.25 else 0)
                     + inject_Z (Z.of_nat g) * 0.08
                     < inject_Z (Z.of_nat b) * 0.25).
  { assert (Hz : (30 + (if official channel then 25 else 0) + 8 * g < 25 * b)%nat
                 <-> (30 + (if official channel then 25 else 0)
                      + 8 * Z.of_nat g < 25 * Z.of_nat b)%Z)
      by (destruct (official channel); lia).
    rewrite Hz, Zlt_Qlt.
    rewrite !inject_Z_plus, !inject_Z_mult.
    destruct (official channel);
      change (inject_Z 30) with 30; change (inject_Z 25) with 25;
      change (inject_Z 8) with 8; change (inject_Z 0) with 0;
      split; intros; lra. }
  rewrite Hnat. unfold score_result.
  destruct (clamp_cases (raw_score title channel)) as [[H E]|[[H E]|[H E]]];
    rewrite E; split; intros; lra.
Qed.

Lemma insert_by_score_perm (v : Video) (l : list Video) :
  Permutation (insert_by_score v l) (v :: l).
Proof.
  induction l as [|u l IH]; simpl; [reflexivity|].
  destruct (Qle_bool (score u) (score v)); [reflexivity|].
  rewrite IH. apply perm_swap.
Qed.

Lemma insert_by_score_sorted (v : Video) (l : list Video) :
  Sorted by_score_desc l -> Sorted by_score_desc (insert_by_score v l).
Proof.
  induction l as [|u l IH]; intros Hs; simpl.
  - repeat constructor.
  - destruct (Qle_bool (score u) (score v)) eqn:E.
    + apply Qle_bool_iff in E. constructor; [exact Hs|]. now constructor.
    + assert (Hlt : score v < score u).
      { apply Qnot_le_lt. intros H. apply Qle_bool_iff in H. congruence. }
      inversion Hs as [|? ? Hs' Hhd]; subst. constructor; [now apply IH|].
      destruct l as [|u' l]; simpl.
      * constructor. unfold by_score_desc. lra.
      * destruct (Qle_bool (score u') (score v)); constructor.
        -- unfold by_score_desc. lra.
        -- now inversion Hhd.
Qed.

Lemma sort_by_score_spec (l : list Video) :
  Sorted by_score_desc (sort_by_score l) /\ Permutation (sort_by_score l) l.
Proof.
  induction l as [|v l [IHs IHp]]; simpl; [split; constructor|]. split.
  - now apply insert_by_score_sorted.
  - rewrite insert_by_score_perm. now constructor.
Qed.

Lemma video_of_line_spec (line : string) :
  (length (video_of_line line) <= 1)%nat /\
  List.Forall (fun v => 0.2 <= score v <= 1
                        /\ score v = score_result (title v) (channel v)
                        /\ is_official v = official (channel v))
              (video_of_line line).
Proof.
  unfold video_of_line.
  destruct (negb (contains "|||" line)); [split; [cbn; lia|constructor]|].
  destruct (split "|||" line) as [|t [|i [|c [|d rest]]]];
    try (split; [cbn; lia|constructor]).
  destruct (Qle_bool 0.2 (score_result t c)) eqn:E; cbn [negb];
    [|split; [cbn; lia|constructor]].
  apply Qle_bool_iff in E. split; [cbn; lia|].
  constructor; [|constructor]. cbn [score title channel is_official].
  pose proof (score_result_range_bounds t c). repeat split; try lra; tauto.
Qed.

Lemma videos_of_lines (lines : list string) :
  List.Forall (fun v => 0.2 <= score v <= 1
                        /\ score v = score_result (title v) (channel v)
                        /\ is_official v = official (channel v))
              (flat_map video_of_line lines)
  /\ (length (flat_map video_of_line lines) <= length lines)%nat.
Proof.
  induction lines as [|line lines [IHf IHl]]; cbn [flat_map length].
  - split; [apply List.Forall_nil|lia].
  - destruct (video_of_line_spec line) as [Hlen Hf]. split.
    + apply List.Forall_app. now split.
    + rewrite List.length_app. lia.
Qed.

(** Once the search tool has run, the footage search returns the accepted
    results best score first: the list is sorted by descending score, it
    holds exactly the results the lines of the output yield (at most one per
    line), and each of them carries its own score, between 0.2 and 1. *)
Theorem search_youtube_enhanced_ranked
        (subprocess_run : list string -> Result string)
        (query : string) (max_results : nat) (stdout : string) :
  subprocess_run (yt_dlp_cmd query max_results) = Ok stdout ->
  exists videos,
    search_youtube_enhanced subprocess_run query max_results = Ok videos /\
    Sorted by_score_desc videos /\
    Permutation videos (flat_map video_of_line (split LF (strip stdout))) /\
    (length videos <= length (split LF (strip stdout)))%nat /\
    List.Forall (fun v => 0.2 <= score v <= 1
                          /\ score v = score_result (title v) (channel v)
                          /\ is_official v = official (channel v))
                videos.
Proof.
  intros Hrun. unfold search_youtube_enhanced. rewrite Hrun.
  set (lines := split LF (strip stdout)).
  destruct (sort_by_score_spec (flat_map video_of_line lines)) as [Hs Hp].
  eexists. split; [reflexivity|]. split; [exact Hs|]. split; [exact Hp|].
  destruct (videos_of_lines lines) as [Hf Hl]. split.
  - rewrite (Permutation_length Hp). exact Hl.
  - eapply Permutation_Forall; [symmetry; exact Hp|exact Hf].
Qed.

Lemma search_youtube_enhanced_ranked_two_videos :
  exists videos,
    search_youtube_enhanced two_videos "monaco" 8 = Ok videos /\
    Sorted by_score_desc videos /\
    Permutation videos
      (flat_map video_of_line
         (split LF (strip
            ("Monaco GP interview with the winner|||abc|||Some Fan|||300" +:+ LF
             +:+ "Monaco GP race highlights|||def|||FORMULA 1|||420" +:+ LF)))) /\
    (length videos
     <= length
          (split LF (strip
             ("Monaco GP interview with the winner|||abc|||Some Fan|||300" +:+ LF
              +:+ "Monaco GP race highlights|||def|||FORMULA 1|||420" +:+ LF))))%nat /\
    List.Forall (fun v => 0.2 <= score v <= 1
                          /\ score v = score_result (title v) (channel v)
                          /\ is_official v = official (channel v))
                videos.
Proof.
  apply (search_youtube_enhanced_ranked two_videos "monaco" 8). reflexivity.
Defined.

(** ** Query enhancement *)

Local Close Scope Q_scope.

Lemma lower_app (a b : string) : lower (a +:+ b) = lower a +:+ lower b.
Proof.
  induction a as [|c a IH]; [reflexivity|].
  rewrite app_cons. cbn [lower]. now rewrite IH, app_cons.
Qed.

Lemma prefix_app_l (s a b : string) :
  String.prefix s a = true -> String.prefix s (a +:+ b) = true.
Proof.
  intros H. apply prefix_app in H as [rest ->]. apply prefix_app.
  exists (rest +:+ b). apply app_assoc_str.
Qed.

Lemma contains_app_l (s a b : string) :
  contains s a = true -> contains s (a +:+ b) = true.
Proof.
  induction a as [|c a IH].
  - cbn [contains]. rewrite orb_false_r. intros H.
    destruct s as [|c s]; [|discriminate]. now destruct b.
  - rewrite app_cons. cbn [contains]. intros H.
    apply orb_true_iff in H as [H|H]; apply orb_true_iff.
    + left. rewrite <- app_cons. now apply prefix_app_l.
    + right. now apply IH.
Qed.

Lemma contains_app_r (s a b : string) :
  contains s b = true -> contains s (a +:+ b) = true.
Proof.
  intros H. induction a as [|c a IH]; [exact H|].
  rewrite app_cons. cbn [contains]. rewrite IH. apply orb_true_r.
Qed.

Lemma any_in_app_l (kws : list string) (a b : string) :
  any_in kws a = true -> any_in kws (a +:+ b) = true.
Proof.
  unfold any_in. rewrite !existsb_exists. intros (kw & Hin & Hc).
  exists kw. split; [exact Hin|]. now apply contains_app_l.
Qed.

Lemma any_in_app_r (kws : list string) (a b : string) :
  any_in kws b = true -> any_in kws (a +:+ b) = true.
Proof.
  unfold any_in. rewrite !existsb_exists. intros (kw & Hin & Hc).
  exists kw. split; [exact Hin|]. now apply contains_app_r.
Qed.

(** The enhanced query starts with the query, mentions F1 (or formula) and
    holds a desirable keyword; enhancing it again changes nothing. *)
Theorem enhance_query_idempotent (query : string) :
  String.prefix query (enhance_query query) = true /\
  (contains "f1" (lower (enhance_query query))
   || contains "formula" (lower (enhance_query query))) = true /\
  any_in GOOD_KEYWORDS (lower (enhance_query query)) = true /\
  enhance_query (enhance_query query) = enhance_query query.
Proof.
  assert (Hfix : forall q,
             (contains "f1" (lower q) || contains "formula" (lower q)) = true ->
             any_in GOOD_KEYWORDS (lower q) = true ->
             enhance_query q = q).
  { intros q Hf Hg. unfold enhance_query. rewrite Hf, Hg. reflexivity. }
  assert (Hf1 : forall q s,
             (contains "f1" (lower q) || contains "formula" (lower q)) = true ->
             (contains "f1" (lower (q +:+ s))
              || contains "formula" (lower (q +:+ s))) = true).
  { intros q s H. rewrite lower_app.
    apply orb_true_iff in H as [H|H]; apply orb_true_iff;
      [left|right]; now apply contains_app_l. }
  assert (Hpre : forall q s, String.prefix q (q +:+ s) = true)
    by (intros; apply prefix_app; eauto).
  assert (Hpre2 : forall q s t, String.prefix q ((q +:+ s) +:+ t) = true)
    by (intros; rewrite app_assoc_str; apply prefix_app; eauto).
  assert (Hself : String.prefix query query = true).
  { apply prefix_app. exists EmptyString.
    clear. induction query as [|c q IH]; [reflexivity|].
    rewrite app_cons. now rewrite <- IH. }
  assert (Hadd : (contains "f1" (lower (query +:+ " F1"))
                  || contains "formula" (lower (query +:+ " F1"))) = true).
  { rewrite lower_app. apply orb_true_iff. left. now apply contains_app_r. }
  assert (Key : String.prefix query (enhance_query query) = true /\
                (contains "f1" (lower (enhance_query query))
                 || contains "formula" (lower (enhance_query query))) = true /\
                any_in GOOD_KEYWORDS (lower (enhance_query query)) = true).
  { unfold enhance_query.
    destruct (contains "f1" (lower query) || contains "formula" (lower query)) eqn:Ef;
      destruct (any_in GOOD_KEYWORDS (lower query)) eqn:Eg; cbn [negb].
    - auto.
    - repeat match goal with
             | |- context [if ?b then _ else _] => destruct b
             end;
        (split; [apply Hpre|split; [now apply Hf1|]]);
        rewrite lower_app; now apply any_in_app_r.
    - split; [apply Hpre|split; [exact Hadd|]].
      rewrite lower_app. now apply any_in_app_l.
    - repeat match goal with
             | |- context [if ?b then _ else _] => destruct b
             end;
        (split; [apply Hpre2|split; [now apply Hf1|]]);
        rewrite lower_app; now apply any_in_app_r. }
  destruct Key as (K1 & K2 & K3). repeat split; auto.
Qed.

(** ** Callers of the image searches *)

Lemma request_times_rate_limit (b : Backend) (w : World) :
  request_times (events (rate_limit b w)) = request_times (events w).
Proof. unfold rate_limit. now destruct (rate_limit_wait w). Qed.

Section ImageSearchCallerFacts.

Variable host : World -> Env.
Variable network : Backend -> string -> nat -> World -> Response * Q.

(** What one search does in an environment: it issues at most one request;
    it raises only what the key lookup raises, and then changes nothing;
    and without a key it changes nothing and, the cache being empty,
    returns an empty list. *)
Lemma call_search_spec (b : Backend) (query : string) (n : nat) (w : World) :
  exists r w',
    call_search host network b query n w = (r, w') /\
    (request_count w <= request_count w' <= S (request_count w))%nat /\
    (forall e, r = Raise e ->
       w' = w /\ get_api_key (host w) (backend_name b) = Raise e /\
       IMAGE_CACHE w !! cache_key b query n = None) /\
    (forall e, IMAGE_CACHE w !! cache_key b query n = None ->
       get_api_key (host w) (backend_name b) = Raise e -> r = Raise e) /\
    ((exists api_key, get_api_key (host w) (backend_name b) = Ok api_key
                      /\ truthy_opt api_key = false) ->
     w' = w /\ (IMAGE_CACHE w = ∅ -> r = Ok [])).
Proof.
  unfold call_search.
  set (resp := fst (network b query n w)).
  set (latency := snd (network b query n w)).
  destruct (IMAGE_CACHE w !! cache_key b query n) as [cached|] eqn:Hc.
  - exists (Ok cached), w. split; [unfold search_images; now rewrite Hc|].
    split; [lia|]. split; [discriminate|]. split; [discriminate|].
    intros _. split; [reflexivity|].
    intros He. rewrite He, lookup_empty in Hc. discriminate.
  - destruct (get_api_key (host w) (backend_name b)) as [api_key|e] eqn:Hget.
    + destruct (truthy_opt api_key) eqn:Hk.
      * destruct (search_images_request b query n (host w) api_key resp latency
                                        w Hc Hget Hk)
          as (Hres & _ & _ & Hev).
        destruct (search_images b query n (host w) resp latency w)
          as [r w'] eqn:E.
        cbn [fst snd] in Hres, Hev. subst r. eexists; exists w'.
        split; [reflexivity|]. split.
        { unfold request_count. rewrite Hev. cbn [request_times length].
          rewrite request_times_rate_limit. lia. }
        split; [discriminate|]. split; [discriminate|].
        intros (k & [= <-] & Hk'). congruence.
      * exists (Ok []), w.
        split; [unfold search_images; now rewrite Hc, Hget, Hk|].
        split; [lia|]. split; [discriminate|]. split; [discriminate|]. auto.
    + exists (Raise e), w.
      split; [unfold search_images; now rewrite Hc, Hget|].
      split; [lia|]. split; [intros ? [= <-]; auto|].
      split; [intros ? _ [= <-]; reflexivity|].
      intros (k & Hk & _). discriminate.
Qed.

Lemma search_f1_loop_spec (queries : list string) (num : nat) :
  forall all_urls w,
  exists r w',
    search_f1_loop host network queries num all_urls w = (r, w') /\
    (request_count w <= request_count w' <= request_count w + 2 * length queries)%nat /\
    (forall e, r = Raise e ->
       exists w0 b, get_api_key (host w0) (backend_name b) = Raise e) /\
    (keyless host -> w' = w /\ (IMAGE_CACHE w = ∅ -> r = Ok all_urls)).
Proof.
  induction queries as [|query rest IH]; intros all_urls w.
  - exists (Ok all_urls), w. cbn. repeat split; auto; try lia. discriminate.
  - cbn [search_f1_loop length].
    set (f1_query := if negb (contains "f1" (lower query))
                     then query +:+ " Formula 1" else query).
    destruct (call_search_spec Pexels f1_query num w)
      as ([urls|e] & w1 & -> & Hreq1 & Hr1 & _ & Hno1).
    + destruct (length urls <? num)%nat.
      * destruct (call_search_spec Unsplash f1_query (num - length urls) w1)
          as ([urls2|e] & w2 & -> & Hreq2 & Hr2 & _ & Hno2).
        -- destruct (IH ((all_urls ++ urls) ++ urls2) w2)
             as (res & w3 & -> & Hreq3 & Hr3 & Hno3).
           exists res, w3. split; [reflexivity|]. split; [lia|].
           split; [exact Hr3|].
           intros Hnone. destruct (Hno1 (Hnone w Pexels)) as [-> He1].
           destruct (Hno2 (Hnone w Unsplash)) as [-> He2].
           destruct (Hno3 Hnone) as [-> He3]. split; [reflexivity|].
           intros He. rewrite (He3 He).
           specialize (He1 He). specialize (He2 He).
           injection He1 as ->. injection He2 as ->.
           now rewrite !app_nil_r.
        -- exists (Raise e), w2. split; [reflexivity|]. split; [lia|].
           split.
           ++ intros e' [= <-]. destruct (Hr2 e eq_refl) as (_ & Hget & _).
              eauto.
           ++ intros Hnone. destruct (Hno1 (Hnone w Pexels)) as [-> _].
              destruct (Hno2 (Hnone w Unsplash)) as [-> He2].
              split; [reflexivity|]. intros He. specialize (He2 He).
              discriminate.
      * destruct (IH (all_urls ++ urls) w1) as (res & w3 & -> & Hreq3 & Hr3 & Hno3).
        exists res, w3. split; [reflexivity|]. split; [lia|].
        split; [exact Hr3|].
        intros Hnone. destruct (Hno1 (Hnone w Pexels)) as [-> He1].
        destruct (Hno3 Hnone) as [-> He3]. split; [reflexivity|].
        intros He. rewrite (He3 He). specialize (He1 He).
        injection He1 as ->. now rewrite app_nil_r.
    + exists (Raise e), w1. split; [reflexivity|]. split; [lia|]. split.
      * intros e' [= <-]. destruct (Hr1 e eq_refl) as (_ & Hget & _). eauto.
      * intros Hnone. destruct (Hno1 (Hnone w Pexels)) as [-> He1].
        split; [reflexivity|]. intros He. specialize (He1 He). discriminate.
Qed.

Lemma person_loop_spec (queries : list string) :
  forall w,
  exists r w',
    person_loop host network queries w = (r, w') /\
    (request_count w <= request_count w' <= request_count w + 2 * length queries)%nat /\
    (forall e, r = Raise e ->
       exists w0 b, get_api_key (host w0) (backend_name b) = Raise e) /\
    (keyless host -> w' = w /\ (IMAGE_CACHE w = ∅ -> r = Ok None)).
Proof.
  induction queries as [|query rest IH]; intros w.
  - exists (Ok None), w. cbn. repeat split; auto; try lia. discriminate.
  - cbn [person_loop length].
    destruct (call_search_spec Pexels query 2 w)
      as ([[|url urls]|e] & w1 & -> & Hreq1 & Hr1 & _ & Hno1).
    + destruct (call_search_spec Unsplash query 2 w1)
        as ([[|url2 urls2]|e] & w2 & -> & Hreq2 & Hr2 & _ & Hno2).
      * destruct (IH w2) as (res & w3 & -> & Hreq3 & Hr3 & Hno3).
        exists res, w3. split; [reflexivity|]. split; [lia|].
        split; [exact Hr3|].
        intros Hnone. destruct (Hno1 (Hnone w Pexels)) as [-> _].
        destruct (Hno2 (Hnone w Unsplash)) as [-> _].
        exact (Hno3 Hnone).
      * exists (Ok (Some url2)), w2. split; [reflexivity|]. split; [lia|].
        split; [discriminate|].
        intros Hnone. destruct (Hno1 (Hnone w Pexels)) as [-> _].
        destruct (Hno2 (Hnone w Unsplash)) as [-> He]. split; [reflexivity|].
        intros Hempty. specialize (He Hempty). discriminate.
      * exists (Raise e), w2. split; [reflexivity|]. split; [lia|]. split.
        -- intros e' [= <-]. destruct (Hr2 e eq_refl) as (_ & Hget & _). eauto.
        -- intros Hnone. destruct (Hno1 (Hnone w Pexels)) as [-> _].
           destruct (Hno2 (Hnone w Unsplash)) as [-> He]. split; [reflexivity|].
           intros Hempty. specialize (He Hempty). discriminate.
    + exists (Ok (Some url)), w1. split; [reflexivity|]. split; [lia|].
      split; [discriminate|].
      intros Hnone. destruct (Hno1 (Hnone w Pexels)) as [-> He].
      split; [reflexivity|]. intros Hempty. specialize (He Hempty). discriminate.
    + exists (Raise e), w1. split; [reflexivity|]. split; [lia|]. split.
      * intros e' [= <-]. destruct (Hr1 e eq_refl) as (_ & Hget & _). eauto.
      * intros Hnone. destruct (Hno1 (Hnone w Pexels)) as [-> He].
        split; [reflexivity|]. intros Hempty. specialize (He Hempty). discriminate.
Qed.

End ImageSearchCallerFacts.

Lemma NoDup_snoc (l : list string) (x : string) :
  List.NoDup l -> ~ In x l -> List.NoDup (l ++ [x]).
Proof.
  induction l as [|a l IH]; intros Hl Hx; cbn.
  - constructor; [intros []|constructor].
  - inversion Hl as [|? ? Ha Hl']; subst. constructor.
    + rewrite in_app_iff. intros [H|[H|[]]]; [auto|].
      subst. apply Hx. now left.
    + apply IH; [exact Hl'|]. intros H. apply Hx. now right.
Qed.

Lemma unique_loop_spec (all_urls : list string) :
  forall (seen : gset string) (unique_urls : list string),
    List.NoDup unique_urls ->
    (forall x, x ∈ seen <-> In x unique_urls) ->
    List.NoDup (unique_loop all_urls seen unique_urls) /\
    (forall x, In x (unique_loop all_urls seen unique_urls)
               <-> In x unique_urls \/ In x all_urls).
Proof.
  induction all_urls as [|url rest IH]; intros seen uniq Hnd Hseen;
    cbn [unique_loop].
  - split; [exact Hnd|]. intros x. cbn. tauto.
  - destruct (decide (url ∈ seen)) as [Hin|Hnin].
    + destruct (IH seen uniq Hnd Hseen) as [H1 H2]. split; [exact H1|].
      intros x. rewrite H2. cbn. split; [tauto|].
      intros [H|[<-|H]]; auto. left. now apply Hseen.
    + destruct (IH ({[url]} ∪ seen) (uniq ++ [url])) as [H1 H2].
      * apply NoDup_snoc; [exact Hnd|]. intros H. apply Hnin. now apply Hseen.
      * intros x. rewrite in_app_iff, elem_of_union, elem_of_singleton, Hseen.
        cbn. split; [intros [->|H]; auto|intros [H|[->|[]]]; auto].
      * split; [exact H1|]. intros x. rewrite H2, in_app_iff. cbn. tauto.
Qed.

(** [search_f1_images] catches nothing, and the searches it calls look the
    key up outside their [try]: it raises exactly what a key lookup raises,
    so it returns a list whenever the key files can be read; when the first
    query is not cached and the Pexels key file cannot be read, it raises
    at once and changes nothing. The list it returns has no duplicates and
    holds exactly the URLs the searches of the first four queries gave. It
    issues at most eight requests; and without a key for either backend it
    has no effect at all (no request, no sleep) and, the cache being empty,
    returns an empty list. *)
Theorem search_f1_images_spec
        (host : World -> Env)
        (network : Backend -> string -> nat -> World -> Response * Q)
        (queries : list string) (num_per_query : nat) (w : World) :
  exists r w',
    search_f1_images host network queries num_per_query w = (r, w') /\
    (request_count w <= request_count w' <= request_count w + 8)%nat /\
    (forall urls, r = Ok urls ->
       List.NoDup urls /\
       exists all_urls,
         search_f1_loop host network (firstn 4 queries) num_per_query [] w
         = (Ok all_urls, w') /\
         forall url, In url urls <-> In url all_urls) /\
    (forall e, r = Raise e ->
       exists w0 b, get_api_key (host w0) (backend_name b) = Raise e) /\
    ((forall w0 b, exists api_key,
         get_api_key (host w0) (backend_name b) = Ok api_key) ->
     exists urls, r = Ok urls) /\
    (forall query rest e,
       queries = query :: rest ->
       IMAGE_CACHE w = ∅ ->
       get_api_key (host w) (backend_name Pexels) = Raise e ->
       r = Raise e /\ w' = w) /\
    (keyless host -> w' = w /\ (IMAGE_CACHE w = ∅ -> r = Ok [])).
Proof.
  unfold search_f1_images.
  destruct (search_f1_loop_spec host network (firstn 4 queries)
                                num_per_query [] w)
    as (r0 & w' & Hloop & Hreq & Hraise & Hno).
  assert (Hlen : (length (firstn 4 queries) <= 4)%nat)
    by (rewrite length_firstn; lia).
  assert (Hfirst : forall query rest e,
             queries = query :: rest ->
             IMAGE_CACHE w = ∅ ->
             get_api_key (host w) (backend_name Pexels) = Raise e ->
             r0 = Raise e /\ w' = w).
  { intros query rest e -> Hempty Hget. cbn [firstn search_f1_loop] in Hloop.
    set (f1_query := if negb (contains "f1" (lower query))
                     then query +:+ " Formula 1" else query) in Hloop.
    destruct (call_search_spec host network Pexels f1_query num_per_query w)
      as (r1 & w1 & E1 & _ & Hr1 & Hmust & _).
    assert (Hr : r1 = Raise e).
    { apply Hmust; [|exact Hget]. rewrite Hempty. apply lookup_empty. }
    subst r1. destruct (Hr1 e eq_refl) as (-> & _).
    rewrite E1 in Hloop. now injection Hloop as <- <-. }
  rewrite Hloop. destruct r0 as [all_urls|e].
  - destruct (unique_loop_spec all_urls ∅ []) as [Hnd Hel].
    { constructor. }
    { intros x. rewrite elem_of_empty. cbn. tauto. }
    exists (Ok (unique_loop all_urls ∅ [])), w'.
    split; [reflexivity|]. split; [lia|]. split; [|split; [|split; [|split]]].
    + intros urls [= <-]. split; [exact Hnd|]. exists all_urls.
      split; [reflexivity|]. intros url. rewrite Hel. cbn. tauto.
    + discriminate.
    + eauto.
    + intros query rest e Hq Hempty Hget.
      destruct (Hfirst query rest e Hq Hempty Hget) as [? _]. discriminate.
    + intros Hnone. destruct (Hno Hnone) as [-> He]. split; [reflexivity|].
      intros Hempty. specialize (He Hempty). injection He as ->. reflexivity.
  - exists (Raise e), w'. split; [reflexivity|]. split; [lia|].
    split; [discriminate|]. split; [|split; [|split]].
    + intros e' [= <-]. now apply Hraise.
    + intros Hread. destruct (Hraise e eq_refl) as (w0 & b & Hget).
      destruct (Hread w0 b) as (k & Hk). congruence.
    + exact Hfirst.
    + intros Hnone. destruct (Hno Hnone) as [-> He]. split; [reflexivity|].
      intros Hempty. specialize (He Hempty). discriminate.
Qed.

Lemma search_f1_images_spec_locked :
  search_f1_images (fun _ => locked_key_file) same_pictures
                   ["Ferrari pit stop"; "Monza"] 3 (start 100)
  = (Raise OSError, start 100).
Proof.
  destruct (search_f1_images_spec (fun _ => locked_key_file) same_pictures
                                  ["Ferrari pit stop"; "Monza"] 3 (start 100))
    as (r & w' & -> & _ & _ & _ & _ & Hfirst & _).
  destruct (Hfirst "Ferrari pit stop" ["Monza"] OSError eq_refl eq_refl eq_refl)
    as [-> ->].
  reflexivity.
Defined.

(** [search_person_image] catches nothing either: it raises exactly what a
    key lookup raises, so it returns a result whenever the key files can be
    read, and it raises at once, changing nothing, when its first query is
    not cached and the Pexels key file cannot be read. It issues at most six
    requests; without a key for either backend it has no effect at all and,
    the cache being empty, finds no picture. *)
Theorem search_person_image_spec
        (host : World -> Env)
        (network : Backend -> string -> nat -> World -> Response * Q)
        (name : string) (w : World) :
  exists r w',
    search_person_image host network name w = (r, w') /\
    (request_count w <= request_count w' <= request_count w + 6)%nat /\
    (forall e, r = Raise e ->
       exists w0 b, get_api_key (host w0) (backend_name b) = Raise e) /\
    ((forall w0 b, exists api_key,
         get_api_key (host w0) (backend_name b) = Ok api_key) ->
     exists res, r = Ok res) /\
    (forall e,
       IMAGE_CACHE w = ∅ ->
       get_api_key (host w) (backend_name Pexels) = Raise e ->
       r = Raise e /\ w' = w) /\
    (keyless host -> w' = w /\ (IMAGE_CACHE w = ∅ -> r = Ok None)).
Proof.
  unfold search_person_image.
  destruct (person_loop_spec host network
              [name +:+ " portrait"; name +:+ " F1"; name +:+ " Formula 1"] w)
    as (r & w' & Hloop & Hreq & Hraise & Hno).
  exists r, w'. split; [exact Hloop|]. split; [cbn [length] in Hreq; lia|].
  split; [exact Hraise|]. split; [|split; [|exact Hno]].
  - intros Hread. destruct r as [res|e]; [eauto|].
    destruct (Hraise e eq_refl) as (w0 & b & Hget).
    destruct (Hread w0 b) as (k & Hk). congruence.
  - intros e Hempty Hget. cbn [person_loop] in Hloop.
    destruct (call_search_spec host network Pexels (name +:+ " portrait") 2 w)
      as (r1 & w1 & E1 & _ & Hr1 & Hmust & _).
    assert (Hr : r1 = Raise e).
    { apply Hmust; [|exact Hget]. rewrite Hempty. apply lookup_empty. }
    subst r1. destruct (Hr1 e eq_refl) as (-> & _).
    rewrite E1 in Hloop. now injection Hloop as <- <-.
Qed.

Lemma search_person_image_spec_locked :
  search_person_image (fun _ => locked_key_file) same_pictures
                      "Lewis Hamilton" (start 100)
  = (Raise OSError, start 100).
Proof.
  destruct (search_person_image_spec (fun _ => locked_key_file) same_pictures
                                     "Lewis Hamilton" (start 100))
    as (r & w' & -> & _ & _ & _ & Hfirst & _).
  destruct (Hfirst OSError eq_refl eq_refl) as [-> ->].
  reflexivity.
Defined.

(** ** The clip search *)

Lemma insert_by_priority_perm (c : Clips.Clip) (l : list Clips.Clip) :
  Permutation (Clips.insert_by_priority c l) (c :: l).
Proof.
  induction l as [|u l IH]; simpl; [reflexivity|].
  destruct (Clips.priority u <=? Clips.priority c)%Z; [reflexivity|].
  rewrite IH. apply perm_swap.
Qed.

Lemma insert_by_priority_sorted (c : Clips.Clip) (l : list Clips.Clip) :
  Sorted Clips.by_priority_desc l ->
  Sorted Clips.by_priority_desc (Clips.insert_by_priority c l).
Proof.
  induction l as [|u l IH]; intros Hs; simpl.
  - repeat constructor.
  - destruct (Clips.priority u <=? Clips.priority c)%Z eqn:E.
    + apply Z.leb_le in E. constructor; [exact Hs|]. now constructor.
    + apply Z.leb_gt in E.
      inversion Hs as [|? ? Hs' Hhd]; subst. constructor; [now apply IH|].
      destruct l as [|u' l]; simpl.
      * constructor. unfold Clips.by_priority_desc. lia.
      * destruct (Clips.priority u' <=? Clips.priority c)%Z; constructor.
        -- unfold Clips.by_priority_desc. lia.
        -- now inversion Hhd.
Qed.

Lemma sort_by_priority_spec (l : list Clips.Clip) :
  Sorted Clips.by_priority_desc (Clips.sort_by_priority l) /\
  Permutation (Clips.sort_by_priority l) l.
Proof.
  induction l as [|c l [IHs IHp]]; simpl; [split; constructor|]. split.
  - now apply insert_by_priority_sorted.
  - rewrite insert_by_priority_perm. now constructor.
Qed.

Lemma Sorted_firstn (A : Type) (R : A -> A -> Prop) (n : nat) (l : list A) :
  Sorted R l -> Sorted R (firstn n l).
Proof.
  revert l; induction n as [|n IH]; intros [|a l] Hs; cbn; try constructor.
  - inversion Hs; subst. now apply IH.
  - inversion Hs as [|? ? _ Hhd]; subst.
    destruct n; [constructor|]. destruct l; cbn; [constructor|].
    inversion Hhd; subst. now constructor.
Qed.

Lemma Forall_firstn (A : Type) (P : A -> Prop) (n : nat) (l : list A) :
  List.Forall P l -> List.Forall P (firstn n l).
Proof.
  intros H. revert n; induction H as [|a l Ha Hl IH]; intros [|n]; cbn;
    constructor; auto.
Qed.

Lemma channel_priority_range (channel : string) :
  (0 <= Clips.channel_priority channel <= 2)%Z.
Proof.
  unfold Clips.channel_priority.
  repeat match goal with
         | |- context [if ?b then _ else _] => destruct b
         end; lia.
Qed.

Section ClipSearchFacts.

Variable subprocess_run : list string -> Result string.
Variable float : string -> option Clips.PyFloat.

Lemma clips_of_lines (lines : list string) :
  List.Forall (fun c => Clips.gt_600 (Clips.duration c) = false
                        /\ Clips.priority c
                           = Clips.channel_priority (Clips.channel c))
              (flat_map (Clips.clip_of_line float) lines).
Proof.
  induction lines as [|line lines IH]; cbn [flat_map]; [constructor|].
  apply List.Forall_app. split; [|exact IH].
  unfold Clips.clip_of_line.
  destruct (contains "|" line); [|constructor].
  destruct (split "|" line) as [|i [|t [|d [|c rest]]]]; try constructor.
  destruct (Clips.gt_600 (Clips.parse_duration float d)) eqn:E;
    constructor; [|constructor]. cbn. now split.
Qed.

End ClipSearchFacts.

(** The clip search never raises: whatever [subprocess.run] raises, it
    returns an empty list. Otherwise it returns at most [max_results]
    clips, highest channel priority first, none of them longer than 600
    seconds (a duration that parses to a NaN passes the test), each with the
    priority of its channel, between 0 and 2. *)
Theorem search_youtube_f1_clips_spec
        (subprocess_run : list string -> Result string)
        (float : string -> option Clips.PyFloat)
        (query : string) (max_results : nat) :
  exists clips,
    Clips.search_youtube_f1_clips subprocess_run float query max_results
    = Ok clips /\
    (length clips <= max_results)%nat /\
    Sorted Clips.by_priority_desc clips /\
    List.Forall (fun c => Clips.gt_600 (Clips.duration c) = false
                          /\ Clips.priority c
                             = Clips.channel_priority (Clips.channel c)
                          /\ (0 <= Clips.priority c <= 2)%Z)
                clips /\
    (forall e, subprocess_run (Clips.yt_dlp_cmd query max_results) = Raise e ->
               clips = []).
Proof.
  unfold Clips.search_youtube_f1_clips.
  destruct (subprocess_run (Clips.yt_dlp_cmd query max_results)) as [stdout|e].
  - set (clips := flat_map (Clips.clip_of_line float) (split LF (strip stdout))).
    destruct (sort_by_priority_spec clips) as [Hs Hp].
    eexists. split; [reflexivity|]. split; [|split; [|split]].
    + pose proof (firstn_le_length max_results (Clips.sort_by_priority clips)).
      pose proof (length_firstn max_results (Clips.sort_by_priority clips)).
      lia.
    + now apply Sorted_firstn.
    + apply Forall_firstn.
      eapply Permutation_Forall; [symmetry; exact Hp|].
      eapply List.Forall_impl; [|apply (clips_of_lines float)].
      intros c [H1 H2]. repeat split; try assumption;
        rewrite H2; apply channel_priority_range.
    + discriminate.
  - exists []. repeat split; try constructor. cbn; lia.
Qed.

(** ** Gathering image clips *)

Local Open Scope Q_scope.


Section ImageClipFacts.

Variable download_file : string -> Z -> bool.
Variable create_image_clip : Z -> Q -> string -> bool.
Variable audio_duration : Q.
Variable num_clips : Z.



End ImageClipFacts.



(** ** Entity detection *)

Local Close Scope Q_scope.

Lemma lower_char_idempotent (c : ascii) : lower_char (lower_char c) = lower_char c.
Proof.
  destruct c as [[] [] [] [] [] [] [] []]; vm_compute; reflexivity.
Qed.

Lemma lower_idempotent (s : string) : lower (lower s) = lower s.
Proof.
  induction s as [|c s IH]; cbn [lower]; [reflexivity|].
  now rewrite lower_char_idempotent, IH.
Qed.

Lemma NoDup_names_in (d : list (string * string)) (t : string) :
  List.NoDup (map snd d) -> List.NoDup (names_in d t).
Proof.
  unfold names_in. induction d as [|[key name] d IH]; cbn [map List.filter];
    [constructor|].
  intros Hnd. inversion Hnd as [|? ? Hnot Hnd']; subst.
  destruct (contains (fst (key, name)) t); [|now apply IH].
  cbn [map snd]. constructor; [|now apply IH].
  intros Hin. apply Hnot. apply in_map_iff in Hin as (kv & <- & Hkv).
  apply filter_In in Hkv as [Hkv _]. apply in_map_iff. now exists kv.
Qed.

Lemma names_in_values (d : list (string * string)) (t name : string) :
  In name (names_in d t) -> In name (map snd d).
Proof.
  unfold names_in. rewrite !in_map_iff. intros (kv & <- & Hkv).
  apply filter_In in Hkv as [Hkv _]. now exists kv.
Qed.

(** Entity detection ignores letter case; it reports every driver, team
    and partner at most once however often the text mentions it; and every
    name it reports is a value of the knowledge base. *)
Theorem detect_f1_entities_spec (text : string) :
  detect_f1_entities (lower text) = detect_f1_entities text /\
  List.NoDup (drivers (detect_f1_entities text)) /\
  List.NoDup (teams (detect_f1_entities text)) /\
  List.NoDup (fuel_partners (detect_f1_entities text)) /\
  (forall name,
      In name (entity_names (detect_f1_entities text)) ->
      In name (map snd (F1_DRIVERS ++ F1_TEAMS ++ FUEL_PARTNERS))).
Proof.
  unfold detect_f1_entities. cbn [drivers teams fuel_partners].
  split; [now rewrite lower_idempotent|].
  split; [apply NoDup_names_in; vm_compute;
          repeat (constructor; [cbn; intuition discriminate|]); constructor|].
  split; [apply NoDup_names_in; vm_compute;
          repeat (constructor; [cbn; intuition discriminate|]); constructor|].
  split; [apply NoDup_names_in; vm_compute;
          repeat (constructor; [cbn; intuition discriminate|]); constructor|].
  intros name. unfold entity_names. cbn [drivers teams fuel_partners].
  rewrite !map_app, !in_app_iff.
  intros [H|[H|H]]; apply names_in_values in H; auto.
Qed.
